(** * OmniScreen: storage, history catalog and region selector

    A shallow embedding of [core/storage.py] (class [StorageManager]) and of
    [gui/region_selector.py] (class [RegionSelector]), with the properties
    the specification states about them.

    Conventions of the embedding:
    - a Python [str] is a list of characters ([list ascii]); [lit] turns a
      literal into one;
    - a [pathlib.Path] is the list of its components;
    - the file system is the finite set of paths that exist (directories
      made by [mkdir] are not tracked);
    - the [screenshots] table is a finite map from the primary key [id] to
      the other columns; a timestamp is the UTC time that CURRENT_TIMESTAMP
      wrote, in seconds, and a Python [datetime] is local time, in
      microseconds;
    - exceptions are values of a [result] type; a [try]/[except] is a match
      on it. *)

From Stdlib Require Import ZArith Lia Ascii String.
From stdpp Require Import base tactics option list gmap sets strings pretty sorting.

Local Open Scope Z_scope.
Local Open Scope nat_scope.

(** ** Python strings *)

Abbreviation str := (list ascii).

Definition lit (s : string) : str := String.list_ascii_of_string s.

Module PyStr.

(** [s.startswith(p)] *)
Fixpoint startswith (p s : str) : bool :=
  match p, s with
  | [], _ => true
  | _ :: _, [] => false
  | a :: p', b :: s' => bool_decide (a = b) && startswith p' s'
  end.

(** [s.replace(old, new)] for a non-empty [old]: the occurrences of [old]
    are replaced from the left, without overlap.  [skip] counts the
    characters of a matched occurrence still to be dropped. *)
Fixpoint replace_go (old new : str) (skip : nat) (s : str) : str :=
  match s with
  | [] => []
  | c :: s' =>
      match skip with
      | S k => replace_go old new k s'
      | O =>
          if startswith old s
          then new ++ replace_go old new (length old - 1) s'
          else c :: replace_go old new 0 s'
      end
  end.

Definition replace (old new s : str) : str := replace_go old new 0 s.

(** [s.split(sep)] for a one-character separator: never the empty list. *)
Fixpoint split (sep : ascii) (s : str) : list str :=
  match s with
  | [] => [[]]
  | c :: s' =>
      if bool_decide (c = sep) then [] :: split sep s'
      else match split sep s' with
           | h :: t => (c :: h) :: t
           | [] => [[c]]
           end
  end.

(** [s.rfind(c)]: index of the last occurrence, [None] for Python's -1. *)
Fixpoint rfind (c : ascii) (s : str) : option nat :=
  match s with
  | [] => None
  | x :: s' =>
      match rfind c s' with
      | Some i => Some (S i)
      | None => if bool_decide (x = c) then Some 0 else None
      end
  end.

(** [s.lstrip()], [s.rstrip()] and [s.strip()], for a given notion of
    white space. *)
Fixpoint lstrip (isspace : ascii → bool) (s : str) : str :=
  match s with
  | [] => []
  | c :: s' => if isspace c then lstrip isspace s' else s
  end.

Definition rstrip (isspace : ascii → bool) (s : str) : str :=
  reverse (lstrip isspace (reverse s)).

Definition strip (isspace : ascii → bool) (s : str) : str :=
  rstrip isspace (lstrip isspace s).

(** Python's truth value of an optional string: [None] and [""] are
    false. *)
Definition truthy (o : option str) : bool :=
  match o with
  | Some (_ :: _) => true
  | _ => false
  end.

(** [str.isalnum] and [str.isspace] on the code points below 128. *)
Definition ascii_isalnum (c : ascii) : bool :=
  let n := nat_of_ascii c in
  ((48 <=? n) && (n <=? 57)) || ((65 <=? n) && (n <=? 90))
  || ((97 <=? n) && (n <=? 122)).

Definition ascii_isspace (c : ascii) : bool :=
  let n := nat_of_ascii c in
  ((9 <=? n) && (n <=? 13)) || ((28 <=? n) && (n <=? 32)).

End PyStr.

(** ** pathlib *)

Abbreviation Path := (list str).

Module Pathlib.

(** [p / segment] for a segment that is one name; joining the empty
    string leaves the path as it is. *)
Definition joinpath (p : Path) (segment : str) : Path :=
  match segment with
  | [] => p
  | _ => p ++ [segment]
  end.

(** [p.name]: the final component, empty for a path without one. *)
Definition name (p : Path) : str := default [] (last p).

(** [p.parent] *)
Definition parent (p : Path) : Path := take (length p - 1) p.

(** [p.suffix] and [p.stem]: the name is cut at its last dot, unless
    that dot is the first or the last character. *)
Definition cut (nm : str) : option nat :=
  match PyStr.rfind "." nm with
  | Some i => if bool_decide (0 < i ∧ i < length nm - 1) then Some i else None
  | None => None
  end.

Definition suffix (p : Path) : str :=
  match cut (name p) with
  | Some i => drop i (name p)
  | None => []
  end.

Definition stem (p : Path) : str :=
  match cut (name p) with
  | Some i => take i (name p)
  | None => name p
  end.

End Pathlib.

(** ** Configuration *)

(** The keys of [config.py] that the storage manager reads. *)
Record Config := {
  naming_pattern : str;      (* storage.naming_pattern *)
  format : str;              (* storage.format *)
  organize_by : str;         (* storage.organize_by *)
  base_path : Path;          (* storage.save_location *)
  auto_delete_enabled : bool;
  days_to_keep : Z
}.

Definition sep_free (s : str) : Prop := Forall (λ c, c ≠ "/"%char ∧ c ≠ "\"%char) s.

(** ** Naming engine and path organizer *)

Section Naming.

(** [strftime pat] is [datetime.now().strftime(pat)] at the (fixed) time
    of the calls under study; [isalnum] and [isspace] are Python's
    character classes. *)
Variable strftime : str → str.
Variable isalnum : ascii → bool.
Variable isspace : ascii → bool.

Definition allowed (c : ascii) : bool :=
  isalnum c || bool_decide (c = " "%char) || bool_decide (c = "-"%char)
  || bool_decide (c = "_"%char).

(** Lines 111-112 of [generate_filename]. *)
Definition safe_name (window_name : str) : str :=
  take 50 (PyStr.strip isspace (filter (λ c, allowed c = true) window_name)).

Definition generate_filename (cfg : Config) (window_name : option str) : str :=
  let pattern := naming_pattern cfg in
  let format_ext := format cfg in
  let filename := strftime pattern in
  let filename :=
    if PyStr.truthy window_name
    then PyStr.replace (lit "{window}") (safe_name (default [] window_name)) filename
    else PyStr.replace (lit "{window}") (lit "screen") filename in
  filename ++ lit "." ++ format_ext.

Definition app_name_of (filename : str) : str :=
  let parts := PyStr.split "_" filename in
  if bool_decide (1 < length parts)
  then PyStr.replace (lit ".jpg") []
         (PyStr.replace (lit ".png") [] (default [] (last parts)))
  else lit "unknown".

(** [get_save_path]; the [mkdir] only adds directories and is left out. *)
Definition get_save_path (cfg : Config) (filename : str) : Path :=
  let full_path :=
    if bool_decide (organize_by cfg = lit "date") then
      foldl Pathlib.joinpath (base_path cfg)
            (PyStr.split "/" (strftime (lit "%Y/%m/%d")))
    else if bool_decide (organize_by cfg = lit "application") then
      Pathlib.joinpath (base_path cfg) (app_name_of filename)
    else base_path cfg in
  Pathlib.joinpath full_path filename.

End Naming.

(** What [s.strip()] returns: the argument without a leading and a trailing
    run of white space, and with no white space left at either end. *)
Definition trimmed_of (isspace : ascii → bool) (s t : str) : Prop :=
  (∃ pre post, s = pre ++ t ++ post
               ∧ Forall (λ c, isspace c = true) pre
               ∧ Forall (λ c, isspace c = true) post)
  ∧ (∀ c, head t = Some c → isspace c = false)
  ∧ (∀ c, last t = Some c → isspace c = false).

(** ** Exceptions and the sqlite3 layer *)

Inductive exn :=
  | IntegrityError
  | OperationalError
  | FileNotFoundError
  | OverflowError.

Inductive result (A : Type) : Type :=
  | Ok (a : A)
  | Raise (e : exn).
Arguments Ok {A} a.
Arguments Raise {A} e.

Global Instance result_ret : MRet result := λ A a, Ok a.
Global Instance result_bind : MBind result := λ A B f m,
  match m with
  | Ok a => f a
  | Raise e => Raise e
  end.

(** The calls into [sqlite3] that the storage manager makes. *)
Inductive sqlite_call := Connect | Execute | Fetch | Commit.

(** An environment says which of these calls raise; in [healthy] none
    does. *)
Definition sqlite_env := sqlite_call → bool.

Definition healthy : sqlite_env := λ _, false.

Definition call (env : sqlite_env) (c : sqlite_call) : result unit :=
  if env c then Raise OperationalError else Ok tt.

(** ** datetime *)

Module Datetime.

(** A naive [datetime] is the number of microseconds from
    0001-01-01 00:00:00 to it, on the wall clock it was read from;
    [datetime.max] is 9999-12-31 23:59:59.999999. *)
Definition second : Z := 1000000.
Definition day : Z := 86400 * second.
Definition max : Z := 3652059 * day - 1.

(** [timedelta(days=days)] *)
Definition timedelta (days : Z) : result Z :=
  if bool_decide (-999999999 ≤ days ≤ 999999999)%Z then Ok (days * day)%Z
  else Raise OverflowError.

(** [t - delta], a [datetime] again. *)
Definition sub (t delta : Z) : result Z :=
  let r := (t - delta)%Z in
  if bool_decide (0 ≤ r ≤ max)%Z then Ok r else Raise OverflowError.

(** [datetime.now()], the local time: [utc] seconds and [microsecond]
    microseconds of UTC, on a clock that is [utcoffset] seconds ahead of
    UTC. *)
Definition now (utc utcoffset microsecond : Z) : Z :=
  ((utc + utcoffset) * second + microsecond)%Z.

End Datetime.

(** ** The history catalog *)

(** A row of the [screenshots] table, without its primary key.  The TEXT
    column [filepath] holds [str(path)]; as [Path(str(p))] is [p] it is kept
    as the path.  The column [timestamp] holds the text
    [YYYY-MM-DD HH:MM:SS] that CURRENT_TIMESTAMP wrote, which is UTC; it is
    kept as the number of seconds from 0001-01-01 00:00:00 to it. *)
Record screenshot := {
  filename : str;
  filepath : Path;
  window_name : option str;
  capture_mode : str;
  timestamp : Z;
  width : Z;
  height : Z;
  file_size : Z;
  tags : option str;
  notes : option str
}.

(** The table, keyed by [id INTEGER PRIMARY KEY AUTOINCREMENT], and the
    largest row id handed out so far ([sqlite_sequence]). *)
Record database := {
  table : gmap Z screenshot;
  sqlite_sequence : Z
}.

(** What exists on disk, and the catalog. *)
Record world := {
  files : gset Path;
  db : database
}.

Module Sql.

(** ASCII case folding, as SQLite's [LIKE] does it. *)
Definition lower (c : ascii) : ascii :=
  let n := nat_of_ascii c in
  if (65 <=? n) && (n <=? 90) then ascii_of_nat (n + 32) else c.

(** The matcher of [LIKE] without an ESCAPE clause, on a pattern [p] and
    a text that are C strings: [%] matches any run of characters, [_] any
    one character, every other character itself up to ASCII case. *)
Fixpoint like (p : str) : str → bool :=
  match p with
  | [] => λ s, match s with [] => true | _ :: _ => false end
  | c :: p' =>
      if bool_decide (c = "%"%char) then
        fix star (s : str) : bool :=
          like p' s || match s with [] => false | _ :: s' => star s' end
      else if bool_decide (c = "_"%char) then
        λ s, match s with [] => false | _ :: s' => like p' s' end
      else
        λ s, match s with
             | [] => false
             | d :: s' => bool_decide (lower c = lower d) && like p' s'
             end
  end.

(** What the matcher is given of a text value: the C string, which ends
    before the first NUL character. *)
Fixpoint c_str (s : str) : str :=
  match s with
  | [] => []
  | c :: s' => if bool_decide (c = "000"%char) then [] else c :: c_str s'
  end.

(** [column LIKE p] on a nullable column: NULL never satisfies it. *)
Definition like_null (p : str) (column : option str) : bool :=
  match column with
  | Some s => like (c_str p) (c_str s)
  | None => false
  end.

(** The bytes of a text in UTF-8, its characters being the code points
    below 256. *)
Definition utf8_length (s : str) : Z :=
  Z.of_nat (sum_list_with (λ c, if nat_of_ascii c <? 128 then 1 else 2) s).

Definition SQLITE_MAX_LIKE_PATTERN_LENGTH : Z := 50000.

(** The SQL function behind [column LIKE p], which refuses a pattern of
    more bytes than the limit before it looks at the column. *)
Definition likeFunc (p : str) (column : option str) : result bool :=
  if bool_decide (SQLITE_MAX_LIKE_PATTERN_LENGTH < utf8_length p)%Z
  then Raise OperationalError
  else Ok (like_null p column).

(** The rows for which a [WHERE] clause holds; it is evaluated row by
    row and may raise. *)
Fixpoint where_ {A} (cond : A → result bool) (rows : list A)
  : result (list A) :=
  match rows with
  | [] => Ok []
  | r :: rows' =>
      b ← cond r;
      selected ← where_ cond rows';
      mret (if b : bool then r :: selected else selected)
  end.

(** Binding a Python [int] to a parameter: an SQLite INTEGER has 64
    bits. *)
Definition bind_int (n : Z) : result Z :=
  if bool_decide (- 2 ^ 63 ≤ n < 2 ^ 63)%Z then Ok n else Raise OverflowError.

(** [timestamp < ?] with a [datetime] for the parameter.  The adapter of
    [sqlite3] binds it as the text [YYYY-MM-DD HH:MM:SS], followed by
    [.ffffff] when the microseconds are not 0, and the two texts are
    compared character by character; on texts of this form that is the
    order of the numbers.  Whose clock the texts were read from plays no
    part. *)
Definition timestamp_before (cutoff_date : Z) (r : screenshot) : Prop :=
  (timestamp r * Datetime.second < cutoff_date)%Z.

Global Instance timestamp_before_dec cutoff_date r :
  Decision (timestamp_before cutoff_date r).
Proof. unfold timestamp_before. apply _. Defined.

(** [ORDER BY timestamp DESC]; rows with equal timestamps come in an
    order that SQLite leaves open. *)
Definition newer_first (a b : Z * screenshot) : Prop :=
  (timestamp b.2 ≤ timestamp a.2)%Z.

Global Instance newer_first_dec a b : Decision (newer_first a b).
Proof. unfold newer_first. apply _. Defined.

Definition order_by_timestamp_desc (rows : list (Z * screenshot))
  : list (Z * screenshot) := merge_sort newer_first rows.

(** [LIMIT limit OFFSET offset]: a negative offset counts as 0, a
    negative limit as no limit. *)
Definition limit_offset {A} (limit offset : Z) (rows : list A) : list A :=
  let rest := drop (Z.to_nat offset) rows in
  if (limit <? 0)%Z then rest else take (Z.to_nat limit) rest.

(** The UNIQUE constraint on [filepath]. *)
Definition filepath_taken (p : Path) (t : gmap Z screenshot) : bool :=
  existsb (λ kr, bool_decide (filepath kr.2 = p)) (map_to_list t).

(** AUTOINCREMENT: one more than the largest row id ever used. *)
Definition next_rowid (d : database) : Z :=
  (1 + map_fold (λ k _ acc, Z.max k acc) (sqlite_sequence d) (table d))%Z.

(** [INSERT INTO screenshots (...) VALUES (...)] *)
Definition insert (d : database) (r : screenshot) : result database :=
  if filepath_taken (filepath r) (table d) then Raise IntegrityError
  else
    let i := next_rowid d in
    Ok {| table := <[i := r]> (table d); sqlite_sequence := i |}.

(** [DELETE FROM screenshots WHERE id = ?] *)
Definition delete_id (i : Z) (d : database) : database :=
  {| table := delete i (table d); sqlite_sequence := sqlite_sequence d |}.

End Sql.

(** ** The storage manager *)

Module Fs.

(** [p.exists()] *)
Definition exists_ (fs : gset Path) (p : Path) : bool := bool_decide (p ∈ fs).

(** [p.unlink()]: raises when the file is missing. *)
Definition unlink (fs : gset Path) (p : Path) : result (gset Path) :=
  if bool_decide (p ∈ fs) then Ok (fs ∖ {[p]}) else Raise FileNotFoundError.

(** Writing a file at [p]. *)
Definition write (fs : gset Path) (p : Path) : gset Path := fs ∪ {[p]}.

End Fs.

(** The size of a bitmap and of its encoding on disk. *)
Record Image := {
  image_width : Z;
  image_height : Z;
  encoded_size : Z
}.

(** [_add_to_history]: the row gets its timestamp from the catalog ([now]
    is CURRENT_TIMESTAMP); both [except] clauses only log. *)
Definition _add_to_history (env : sqlite_env) (now : Z) (d : database)
    (filename : str) (filepath : Path) (window_name : option str)
    (capture_mode : str) (width height file_size : Z) : database :=
  let body :=
    _ ← call env Connect;
    _ ← call env Execute;
    d' ← Sql.insert d
          {| filename := filename; filepath := filepath;
             window_name := window_name; capture_mode := capture_mode;
             timestamp := now; width := width; height := height;
             file_size := file_size; tags := None; notes := None |};
    _ ← call env Commit;
    mret d' in
  match body with
  | Ok d' => d'
  | Raise IntegrityError => d
  | Raise _ => d
  end.

(** The [WHERE] clause of the search. *)
Definition search_hit (search_term : str) (r : screenshot) : result bool :=
  let pattern := lit "%" ++ search_term ++ lit "%" in
  a ← Sql.likeFunc pattern (Some (filename r));
  b ← Sql.likeFunc pattern (window_name r);
  c ← Sql.likeFunc pattern (tags r);
  d ← Sql.likeFunc pattern (notes r);
  mret (a || b || c || d).

(** Its value where no [LIKE] raises. *)
Definition search_match (search_term : str) (r : screenshot) : bool :=
  let pattern := lit "%" ++ search_term ++ lit "%" in
  Sql.like_null pattern (Some (filename r))
  || Sql.like_null pattern (window_name r)
  || Sql.like_null pattern (tags r) || Sql.like_null pattern (notes r).

(** The [try] block of [get_history]: [execute] binds [limit] and
    [offset] and runs the query. *)
Definition get_history_body (env : sqlite_env) (d : database)
    (limit offset : Z) (search_term : option str)
    : result (list (Z * screenshot)) :=
  _ ← call env Connect;
  _ ← call env Execute;
  limit ← Sql.bind_int limit;
  offset ← Sql.bind_int offset;
  selected ←
    (if PyStr.truthy search_term
     then Sql.where_ (λ kr, search_hit (default [] search_term) kr.2)
            (map_to_list (table d))
     else Ok (map_to_list (table d)));
  _ ← call env Fetch;
  mret (Sql.limit_offset limit offset (Sql.order_by_timestamp_desc selected)).

(** [get_history]: each record comes with its [id]. *)
Definition get_history (env : sqlite_env) (d : database)
    (limit offset : Z) (search_term : option str) : list (Z * screenshot) :=
  match get_history_body env d limit offset search_term with
  | Ok history => history
  | Raise _ => []
  end.

(** [delete_screenshot]: the file goes before the row does, and the row
    only goes with the commit. *)
Definition delete_screenshot (env : sqlite_env) (w : world)
    (screenshot_id : Z) : bool * world :=
  match (_ ← call env Connect; _ ← call env Execute; call env Fetch) with
  | Raise _ => (false, w)
  | Ok _ =>
      match table (db w) !! screenshot_id with
      | None => (false, w)
      | Some row =>
          let unlinked :=
            if Fs.exists_ (files w) (filepath row)
            then Fs.unlink (files w) (filepath row)
            else Ok (files w) in
          match unlinked with
          | Raise _ => (false, w)
          | Ok files' =>
              match (_ ← call env Execute; call env Commit) with
              | Raise _ => (false, {| files := files'; db := db w |})
              | Ok _ =>
                  (true, {| files := files';
                            db := Sql.delete_id screenshot_id (db w) |})
              end
          end
      end
  end.

(** One round of the loop of [cleanup_old_screenshots], on the files, the
    table inside the open transaction and [deleted_count].  The [unlink]
    is guarded by [exists], so no round raises. *)
Definition cleanup_step (acc : result (gset Path * database * nat))
    (item : Z * Path) : result (gset Path * database * nat) :=
  '(fs, d, deleted_count) ← acc;
  let '(screenshot_id, file_path) := item in
  '(fs, deleted_count) ←
    (if Fs.exists_ fs file_path
     then fs' ← Fs.unlink fs file_path; mret (fs', S deleted_count)
     else mret (fs, deleted_count));
  mret (fs, Sql.delete_id screenshot_id d, deleted_count).

(** [datetime.now() - timedelta(days=days_to_keep)]: raises when the
    number of days or the date is out of range. *)
Definition cutoff_date (now days_to_keep : Z) : result Z :=
  delta ← Datetime.timedelta days_to_keep; Datetime.sub now delta.

(** [cleanup_old_screenshots] when [datetime.now()] is [now], the local
    time: the new world and the count written to the log, if the sweep got
    that far.  The rows are deleted inside one transaction, which the
    commit at the end makes durable. *)
Definition cleanup_old_screenshots (env : sqlite_env) (cfg : Config)
    (now : Z) (w : world) : world * option nat :=
  if negb (auto_delete_enabled cfg) then (w, None)
  else
    match cutoff_date now (days_to_keep cfg) with
    | Raise _ => (w, None)
    | Ok cutoff_date =>
        match (_ ← call env Connect; _ ← call env Execute; call env Fetch) with
        | Raise _ => (w, None)
        | Ok _ =>
            let old_screenshots :=
              (λ kr : Z * screenshot, (kr.1, filepath kr.2)) <$>
                filter (λ kr : Z * screenshot,
                          Sql.timestamp_before cutoff_date kr.2)
                  (map_to_list (table (db w))) in
            match foldl cleanup_step (Ok (files w, db w, 0)) old_screenshots with
            | Raise _ => (w, None)
            | Ok (fs, d, deleted_count) =>
                match call env Commit with
                | Raise _ => ({| files := fs; db := db w |}, None)
                | Ok _ => ({| files := fs; db := d |}, Some deleted_count)
                end
            end
        end
    end.

(** *** Saving *)

(** The path tried at a given value of [counter]:
    [original_filepath.parent / f"{stem}_{counter}{suffix}"]. *)
Definition numbered (original_filepath : Path) (counter : nat) : Path :=
  Pathlib.joinpath (Pathlib.parent original_filepath)
    (Pathlib.stem original_filepath ++ lit "_" ++ lit (pretty counter)
       ++ Pathlib.suffix original_filepath).

(** The [while filepath.exists()] loop of [save_screenshot]; [fuel] bounds
    the number of tests of the condition. *)
Fixpoint resolve (fuel : nat) (fs : gset Path) (original_filepath : Path)
    (filepath : Path) (counter : nat) : option Path :=
  match fuel with
  | O => None
  | S fuel' =>
      if Fs.exists_ fs filepath
      then resolve fuel' fs original_filepath
             (numbered original_filepath counter) (S counter)
      else Some filepath
  end.

(** The numbered paths with a counter below [c]. *)
Definition tried (original_filepath : Path) (c : nat) : gset Path :=
  list_to_set (numbered original_filepath <$> seq 0 c).

(** What the loop is to compute for the candidate [cand] on the file
    system [fs]: a free path, which is the candidate itself when that is
    free, and otherwise the numbered path with the least counter, from 1
    on, that is free. *)
Definition resolution (fs : gset Path) (cand r : Path) : Prop :=
  (r ∉ fs)
  ∧ (((cand ∉ fs) ∧ r = cand)
     ∨ ((cand ∈ fs)
        ∧ ∃ k, 1 ≤ k ∧ r = numbered cand k
               ∧ ∀ j, 1 ≤ j < k → numbered cand j ∈ fs)).

Section Saving.

Variable strftime : str → str.
Variable isalnum : ascii → bool.
Variable isspace : ascii → bool.

(** [save_screenshot]; [now] is the catalog's clock.  Writing the image
    is taken to succeed. *)
Definition save_screenshot (env : sqlite_env) (cfg : Config) (fuel : nat)
    (now : Z) (image : Image) (window_name : option str) (mode : str)
    (w : world) : option (Path * world) :=
  let filename := generate_filename strftime isalnum isspace cfg window_name in
  let filepath := get_save_path strftime cfg filename in
  match resolve fuel (files w) filepath filepath 1 with
  | None => None
  | Some filepath =>
      let files' := Fs.write (files w) filepath in
      let db' :=
        _add_to_history env now (db w) (Pathlib.name filepath) filepath
          window_name mode (image_width image) (image_height image)
          (encoded_size image) in
      Some (filepath, {| files := files'; db := db' |})
  end.

(** One call per image, one after the other, with the clock, the
    configuration and the window name unchanged: all the calls generate
    the same file name and directory. *)
Fixpoint save_all (env : sqlite_env) (cfg : Config) (fuel : nat) (now : Z)
    (window_name : option str) (mode : str) (images : list Image)
    (w : world) : option (list Path * world) :=
  match images with
  | [] => Some ([], w)
  | image :: images' =>
      match save_screenshot env cfg fuel now image window_name mode w with
      | None => None
      | Some (p, w') =>
          match save_all env cfg fuel now window_name mode images' w' with
          | None => None
          | Some (ps, w'') => Some (p :: ps, w'')
          end
      end
  end.

End Saving.

(** ** The region selector *)

Module Qt.

(** Modelled from Qt 6's documentation of [QPoint] and [QRect], classes
    of the GUI library that the selector is built on: a rectangle keeps
    its left, top, right and bottom coordinates, both corners inclusive,
    so that [width() = right - left + 1]; [normalized()] swaps the
    corners of a rectangle of negative width or height, the corners then
    being exclusive of the rectangle's edges.  PyQt gives a [QPoint] the
    truth value [not isNull()]. *)
Record QPoint := { px : Z; py : Z }.

Definition isNull (p : QPoint) : bool := (px p =? 0)%Z && (py p =? 0)%Z.

Record QRect := { x1 : Z; y1 : Z; x2 : Z; y2 : Z }.

Definition QRect_of (topLeft bottomRight : QPoint) : QRect :=
  {| x1 := px topLeft; y1 := py topLeft;
     x2 := px bottomRight; y2 := py bottomRight |}.

Definition normalized (r : QRect) : QRect :=
  let '(nx1, nx2) :=
    if (x2 r <? x1 r - 1)%Z then (x2 r + 1, x1 r - 1)%Z else (x1 r, x2 r) in
  let '(ny1, ny2) :=
    if (y2 r <? y1 r - 1)%Z then (y2 r + 1, y1 r - 1)%Z else (y1 r, y2 r) in
  {| x1 := nx1; y1 := ny1; x2 := nx2; y2 := ny2 |}.

Definition x (r : QRect) : Z := x1 r.
Definition y (r : QRect) : Z := y1 r.
Definition width (r : QRect) : Z := (x2 r - x1 r + 1)%Z.
Definition height (r : QRect) : Z := (y2 r - y1 r + 1)%Z.

Inductive MouseButton := LeftButton | RightButton | MiddleButton.
Inductive Key := Key_Escape | Key_Return | Key_Space.

End Qt.

Module RegionSelector.

Import Qt.

(** The attributes of the widget that the handlers read and write;
    [visible] is cleared by [close()]. *)
Record selector := {
  start_point : option QPoint;
  end_point : option QPoint;
  visible : bool
}.

(** [__init__] followed by [show_fullscreen]. *)
Definition shown : selector :=
  {| start_point := None; end_point := None; visible := true |}.

(** What a handler lets the outside see: the [region_selected] signal
    and the log lines. *)
Inductive output :=
  | Emit (x y width height : Z)
  | LogSelectionStarted
  | LogRegionSelected
  | LogTooSmall
  | LogCancelledByUser.

Global Instance output_eq_dec : EqDecision output.
Proof. solve_decision. Defined.

Inductive event :=
  | MousePress (button : MouseButton) (pos : QPoint)
  | MouseMove (pos : QPoint)
  | MouseRelease (button : MouseButton) (pos : QPoint)
  | KeyPress (key : Key).

(** [if self.start_point:] *)
Definition truthy (p : option QPoint) : bool :=
  match p with
  | Some q => negb (isNull q)
  | None => false
  end.

Definition is_left (b : MouseButton) : bool :=
  match b with LeftButton => true | _ => false end.

Definition close (s : selector) : selector :=
  {| start_point := start_point s; end_point := end_point s;
     visible := false |}.

Definition mousePressEvent (s : selector) (button : MouseButton)
    (pos : QPoint) : selector * list output :=
  if is_left button
  then ({| start_point := Some pos; end_point := Some pos;
           visible := visible s |}, [LogSelectionStarted])
  else (s, []).

Definition mouseMoveEvent (s : selector) (pos : QPoint)
  : selector * list output :=
  if truthy (start_point s)
  then ({| start_point := start_point s; end_point := Some pos;
           visible := visible s |}, [])
  else (s, []).

Definition mouseReleaseEvent (s : selector) (button : MouseButton)
    (pos : QPoint) : selector * list output :=
  match start_point s with
  | Some start =>
      if is_left button && truthy (start_point s) then
        let s := {| start_point := start_point s; end_point := Some pos;
                    visible := visible s |} in
        let rect := normalized (QRect_of start pos) in
        let x := x rect in
        let y := y rect in
        let width := width rect in
        let height := height rect in
        if (5 <? width)%Z && (5 <? height)%Z
        then (close s, [LogRegionSelected; Emit x y width height])
        else (close s, [LogTooSmall])
      else (s, [])
  | None => (s, [])
  end.

Definition keyPressEvent (s : selector) (key : Key)
  : selector * list output :=
  match key with
  | Key_Escape => (close s, [LogCancelledByUser])
  | _ => (s, [])
  end.

(** Qt hands input events to a widget only while it is shown. *)
Definition dispatch (s : selector) (e : event) : selector * list output :=
  if visible s then
    match e with
    | MousePress b pos => mousePressEvent s b pos
    | MouseMove pos => mouseMoveEvent s pos
    | MouseRelease b pos => mouseReleaseEvent s b pos
    | KeyPress k => keyPressEvent s k
    end
  else (s, []).

(** A run: the events in order, the outputs collected. *)
Fixpoint run (s : selector) (events : list event) : selector * list output :=
  match events with
  | [] => (s, [])
  | e :: events' =>
      let '(s', out) := dispatch s e in
      let '(s'', out') := run s' events' in
      (s'', out ++ out')
  end.

(** The rectangles handed to the caller. *)
Definition emitted (out : list output) : list (Z * Z * Z * Z) :=
  omap (λ o, match o with
             | Emit x y w h => Some (x, y, w, h)
             | _ => None
             end) out.

(** The states of the specification, read off the widget and what it
    has logged: an open selector is [Idle] before an anchor is set and
    [Dragging] after; a closed one is [Completed] when it logged a
    selected region and [Cancelled] otherwise. *)
Inductive phase := Idle | Dragging | Completed | Cancelled.

Definition phase_of (s : selector) (out : list output) : phase :=
  if visible s then
    match start_point s with
    | Some _ => Dragging
    | None => Idle
    end
  else if bool_decide (LogRegionSelected ∈ out) then Completed
  else Cancelled.

(** What holds of a selector and its outputs so far, along every run:
    a rectangle is emitted only with the log line of a selected region,
    and an open selector has not logged one. *)
Definition consistent (s : selector) (out : list output) : Prop :=
  (LogRegionSelected ∉ out → emitted out = [])
  ∧ (visible s = true → LogRegionSelected ∉ out).

End RegionSelector.

(** ** The search, in the words of the specification *)

(** [term] occurs in [s] as a substring, up to the case of ASCII letters. *)
Definition occurs_ci (term s : str) : Prop :=
  ∃ pre mid post, s = pre ++ mid ++ post ∧ Sql.lower <$> mid = Sql.lower <$> term.

(** [term] occurs in a column that is not NULL, read up to its first NUL
    character if it has one. *)
Definition occurs_in_column (term : str) (column : option str) : Prop :=
  ∃ s, column = Some s ∧ occurs_ci term (Sql.c_str s).

(** [term] occurs in the file name, the window name, the tags or the notes
    of a record. *)
Definition occurs_in_record (term : str) (r : screenshot) : Prop :=
  occurs_in_column term (Some (filename r))
  ∨ occurs_in_column term (window_name r)
  ∨ occurs_in_column term (tags r) ∨ occurs_in_column term (notes r).

(** A term without the wildcards of [LIKE]. *)
Definition wildcard_free (term : str) : Prop :=
  Forall (λ c, c ≠ "%"%char ∧ c ≠ "_"%char) term.

(** The same as boolean tests. *)
Fixpoint prefix_ci (term s : str) : bool :=
  match term, s with
  | [], _ => true
  | _ :: _, [] => false
  | c :: term', d :: s' =>
      bool_decide (Sql.lower c = Sql.lower d) && prefix_ci term' s'
  end.

Fixpoint contains_ci (term s : str) : bool :=
  prefix_ci term s
  || match s with
     | [] => false
     | _ :: s' => contains_ci term s'
     end.

Definition column_contains_ci (term : str) (column : option str) : bool :=
  match column with
  | Some s => contains_ci term (Sql.c_str s)
  | None => false
  end.

(** ** Data for the examples *)

(** A configuration for the examples: flat storage under [shots], the
    default pattern with the clock stopped at one second. *)
Definition example_config : Config :=
  {| naming_pattern := lit "20240101_120000_{window}";
     format := lit "png"; organize_by := lit "none";
     base_path := [lit "shots"];
     auto_delete_enabled := true; days_to_keep := 30 |}.

(** A configuration that names a file after the window alone. *)
Definition window_only_config : Config :=
  {| naming_pattern := lit "{window}";
     format := lit "png"; organize_by := lit "none";
     base_path := [lit "shots"];
     auto_delete_enabled := false; days_to_keep := 30 |}.

Definition example_image : Image :=
  {| image_width := 100; image_height := 100; encoded_size := 289 |}.

Definition empty_world : world :=
  {| files := ∅; db := {| table := ∅; sqlite_sequence := 0 |} |}.

Definition by_application : Config :=
  {| naming_pattern := lit "%Y%m%d_%H%M%S_{window}";
     format := lit "bmp"; organize_by := lit "application";
     base_path := [lit "shots"];
     auto_delete_enabled := false; days_to_keep := 30 |}.

Definition example_row : screenshot :=
  {| filename := lit "a.png"; filepath := [lit "shots"; lit "a.png"];
     window_name := Some (lit "Chrome"); capture_mode := lit "window";
     timestamp := 1000; width := 100; height := 100; file_size := 289;
     tags := None; notes := None |}.

Definition example_db : database :=
  {| table := {[ 1%Z := example_row ]}; sqlite_sequence := 1 |}.

Definition empty_catalog : database := {| table := ∅; sqlite_sequence := 0 |}.

(** Row 1 was written at second 1000 of UTC; thirty-one days later, on
    a clock set to UTC, it is old. *)
Definition a_month_later : Z := Datetime.now (1000 + 31 * 86400) 0 0.

(** A catalog with one row, written on 2024-01-01 at 12:00:00 UTC, and
    its file. *)
Definition new_year_world : world :=
  {| files := {[ [lit "shots"; lit "b.png"] ]};
     db := {| table :=
                {[ 1%Z := {| filename := lit "b.png";
                             filepath := [lit "shots"; lit "b.png"];
                             window_name := None;
                             capture_mode := lit "fullscreen";
                             timestamp := 738885 * 86400 + 12 * 3600;
                             width := 100; height := 100; file_size := 289;
                             tags := None; notes := None |} ]};
              sqlite_sequence := 1 |} |}.



(** ** Invariants of the catalog *)

(** The UNIQUE constraint on [filepath]: no two rows hold the same path. *)
Definition unique_paths (t : gmap Z screenshot) : Prop :=
  ∀ i j r r', t !! i = Some r → t !! j = Some r' →
    filepath r = filepath r' → i = j.

(** AUTOINCREMENT: [sqlite_sequence] is at least every row id in use. *)
Definition ids_bounded (d : database) : Prop :=
  ∀ i r, table d !! i = Some r → (i ≤ sqlite_sequence d)%Z.

(** The row that [_add_to_history] hands to the INSERT. *)
Definition inserted_row (now : Z) (filename : str) (filepath : Path)
    (window_name : option str) (capture_mode : str)
    (width height file_size : Z) : screenshot :=
  {| filename := filename; filepath := filepath;
     window_name := window_name; capture_mode := capture_mode;
     timestamp := now; width := width; height := height;
     file_size := file_size; tags := None; notes := None |}.

(** An environment in which only the commit raises. *)
Definition commit_fails : sqlite_env :=
  λ c, match c with Commit => true | _ => false end.

(** The rows that the sweep selects: id and path of every row older than
    the cutoff. *)
Definition old_screenshots_of (cutoff_date : Z) (t : gmap Z screenshot)
  : list (Z * Path) :=
  (λ kr : Z * screenshot, (kr.1, filepath kr.2)) <$>
    filter (λ kr : Z * screenshot, Sql.timestamp_before cutoff_date kr.2)
      (map_to_list t).

(** A world for the examples: the example catalog and the file of its
    row. *)
Definition example_world : world :=
  {| files := {[ [lit "shots"; lit "a.png"] ]}; db := example_db |}.

(** ** The capture engine, up to the call into the screen grabber *)

Module Capture.

Inductive CaptureMode := FULLSCREEN | WINDOW | REGION.

(** The keyword arguments of [capture]; a key that is not passed reads as
    [None]. *)
Record kwargs := {
  kw_monitor : option nat;
  kw_window_name : option str;
  kw_x : option Z;
  kw_y : option Z;
  kw_width : option Z;
  kw_height : option Z
}.

(** What is handed to [sct.grab]: a monitor of the grabber's list, or a
    rectangle of the screen. *)
Inductive grab_request :=
  | GrabMonitor (index : nat)
  | GrabRect (x y width height : Z).

Inductive failure := ValueError | IndexError.

Inductive raised (A : Type) : Type :=
  | Returned (a : A)
  | Raised (e : failure).
Arguments Returned {A} a.
Arguments Raised {A} e.

(** A window as [get_active_window_info] reports it: its rectangle, if the
    report has one, and its name, if it has one. *)
Record window_info := {
  wi_rect : option (Z * Z * Z * Z);
  wi_name : option str
}.

Section Engine.

(** The number of entries of [sct.monitors] and the report on the active
    window. *)
Variable monitors : nat.
Variable active_window : option window_info.

(** [capture_fullscreen]: what is grabbed, and the window name returned
    with the image. *)
Definition capture_fullscreen (monitor : nat)
  : raised (grab_request * option str) :=
  if bool_decide (monitor < monitors) then Returned (GrabMonitor monitor, None)
  else Raised IndexError.

(** [capture_window]; the name asked for is not used. *)
Definition capture_window (window_name : option str)
  : raised (grab_request * option str) :=
  match active_window with
  | Some {| wi_rect := Some (x, y, width, height); wi_name := name |} =>
      Returned (GrabRect x y width height,
                Some (default (lit "Unknown") name))
  | _ => capture_fullscreen 0
  end.

Definition capture_region (x y width height : Z)
  : raised (grab_request * option str) :=
  if bool_decide (width ≤ 0)%Z || bool_decide (height ≤ 0)%Z
  then Raised ValueError
  else Returned (GrabRect x y width height, None).

Definition capture (mode : CaptureMode) (kw : kwargs)
  : raised (grab_request * option str) :=
  match mode with
  | FULLSCREEN => capture_fullscreen (default 0 (kw_monitor kw))
  | WINDOW => capture_window (kw_window_name kw)
  | REGION =>
      match kw_x kw, kw_y kw, kw_width kw, kw_height kw with
      | Some x, Some y, Some width, Some height =>
          capture_region x y width height
      | _, _, _, _ => Raised ValueError
      end
  end.

(** [MainWindow.on_region_selected], as far as the capture engine: the
    slot of the selector's signal. *)
Definition on_region_selected (x y width height : Z)
  : raised (grab_request * option str) :=
  capture REGION
    {| kw_monitor := None; kw_window_name := None;
       kw_x := Some x; kw_y := Some y;
       kw_width := Some width; kw_height := Some height |}.

End Engine.

End Capture.

(** What holds of the rectangles of a run of the selector: none while it
    is open, at most one in all, and each more than 5 wide and high. *)
Definition one_big_rectangle (s : RegionSelector.selector)
    (out : list RegionSelector.output) : Prop :=
  (RegionSelector.visible s = true → RegionSelector.emitted out = [])
  ∧ length (RegionSelector.emitted out) ≤ 1
  ∧ Forall (λ e : Z * Z * Z * Z, (5 < e.1.2)%Z ∧ (5 < e.2)%Z)
      (RegionSelector.emitted out).

(** ** The settings of [config.py] *)

Module Settings.

#[local] Set Warnings "-register-all".

(** A value of the settings: what [json.load] returns, integers for
    numbers.  A dictionary keeps its items in insertion order. *)
Inductive value :=
  | JNull
  | JBool (b : bool)
  | JNum (n : Z)
  | JStr (s : str)
  | JList (elements : list value)
  | JDict (items : list (str * value)).

(** [d.get(key)] on the items of a dictionary. *)
Fixpoint assoc (key : str) (items : list (str * value)) : option value :=
  match items with
  | [] => None
  | (k, v) :: rest => if bool_decide (k = key) then Some v else assoc key rest
  end.

(** [d[key] = v]: in place when the key is there, at the end otherwise. *)
Fixpoint assign (key : str) (v : value) (items : list (str * value))
  : list (str * value) :=
  match items with
  | [] => [(key, v)]
  | (k, x) :: rest =>
      if bool_decide (k = key) then (k, v) :: rest
      else (k, x) :: assign key v rest
  end.

(** [Config.get] with the keys [keys], on the settings [settings];
    Python's [None] is [JNull]. *)
Fixpoint get (settings : value) (keys : list str) : value :=
  match keys with
  | [] => settings
  | key :: keys' =>
      match settings with
      | JDict items =>
          match assoc key items with
          | Some v => get v keys'
          | None => JNull
          end
      | _ => JNull
      end
  end.

Inductive failure := TypeError | IndexError.

Inductive outcome :=
  | Updated (settings : value)
  | Raised (e : failure).

(** [Config.set] with the keys [keys] and the value [v], up to the
    [save()]: the settings after the call, or the exception.  An exception can only come before
    anything was changed: from no key at all, or from a value on the way
    that is not a dictionary. *)
Fixpoint set (settings : value) (keys : list str) (v : value) : outcome :=
  match keys with
  | [] => Raised IndexError
  | [key] =>
      match settings with
      | JDict items => Updated (JDict (assign key v items))
      | _ => Raised TypeError
      end
  | key :: keys' =>
      match settings with
      | JDict items =>
          let child := default (JDict []) (assoc key items) in
          match set child keys' v with
          | Updated child' => Updated (JDict (assign key child' items))
          | Raised e => Raised e
          end
      | _ => Raised TypeError
      end
  end.

(** [Config._merge_configs(default, loaded)] on the items of [default],
    for a dictionary [loaded]. *)
Fixpoint _merge_configs (default : list (str * value)) (loaded : value)
    {struct loaded} : list (str * value) :=
  match loaded with
  | JDict items =>
      (fix loop (result : list (str * value)) (items : list (str * value))
           {struct items} : list (str * value) :=
         match items with
         | [] => result
         | (key, v) :: rest =>
             match assoc key result, v with
             | Some (JDict d), JDict _ =>
                 loop (assign key (JDict (_merge_configs d v)) result) rest
             | _, _ => loop (assign key v result) rest
             end
         end) default items
  | _ => default
  end.

Definition is_dict (v : value) : bool :=
  match v with JDict _ => true | _ => false end.

(** The keys of every dictionary inside a value are pairwise distinct, as
    in every Python dictionary. *)
Fixpoint distinct_keys (v : value) : Prop :=
  match v with
  | JDict items =>
      NoDup items.*1
      ∧ (fix each (items : list (str * value)) : Prop :=
           match items with
           | [] => True
           | (_, x) :: rest => distinct_keys x ∧ each rest
           end) items
  | _ => True
  end.

(** A path is missing from a value when, going down through dictionaries,
    it comes to one that lacks the next key. *)
Fixpoint missing (v : value) (keys : list str) : Prop :=
  match keys with
  | [] => False
  | key :: keys' =>
      match v with
      | JDict items =>
          match assoc key items with
          | None => True
          | Some x => is_dict x = true ∧ missing x keys'
          end
      | _ => False
      end
  end.

(** Two paths part ways: after a common prefix they go on with different
    keys. *)
Definition part_ways (keys keys' : list str) : Prop :=
  ∃ common a rest b rest',
    keys = common ++ a :: rest ∧ keys' = common ++ b :: rest' ∧ a ≠ b.

End Settings.

(** The loop of [_merge_configs], named. *)
Fixpoint merge_loop (result items : list (str * Settings.value))
  : list (str * Settings.value) :=
  match items with
  | [] => result
  | (key, v) :: rest =>
      match Settings.assoc key result, v with
      | Some (Settings.JDict d), Settings.JDict _ =>
          merge_loop
            (Settings.assign key
               (Settings.JDict (Settings._merge_configs d v)) result) rest
      | _, _ => merge_loop (Settings.assign key v result) rest
      end
  end.

(** Settings for the examples: a cut of the defaults, and a file that sets
    one format and one key of its own. *)
Definition default_settings : list (str * Settings.value) :=
  [ (lit "storage",
     Settings.JDict [ (lit "format", Settings.JStr (lit "png"));
                      (lit "organize_by", Settings.JStr (lit "date")) ]);
    (lit "auto_delete",
     Settings.JDict [ (lit "enabled", Settings.JBool false);
                      (lit "days_to_keep", Settings.JNum 30) ]) ].

Definition loaded_settings : list (str * Settings.value) :=
  [ (lit "storage",
     Settings.JDict [ (lit "format", Settings.JStr (lit "jpg")) ]);
    (lit "mine", Settings.JNum 7) ].

(** ** The settings as Python objects *)

(** [Config.DEFAULT_CONFIG] and [self.settings] are dictionaries of
    dictionaries; [dict.copy()] copies the outer one only.  Here a
    dictionary is an object at a location of a heap, and a value is a
    leaf or a reference to a dictionary. *)
Module PyObjects.

Inductive pyval :=
  | PNone
  | PBool (b : bool)
  | PNum (n : Z)
  | PStr (s : str)
  | PRef (l : nat).

Fixpoint assoc (key : str) (items : list (str * pyval)) : option pyval :=
  match items with
  | [] => None
  | (k, v) :: rest => if bool_decide (k = key) then Some v else assoc key rest
  end.

Fixpoint assign (key : str) (v : pyval) (items : list (str * pyval))
  : list (str * pyval) :=
  match items with
  | [] => [(key, v)]
  | (k, x) :: rest =>
      if bool_decide (k = key) then (k, v) :: rest
      else (k, x) :: assign key v rest
  end.

(** The dictionaries in memory, the class attribute and the attribute of
    the one [Config] object. *)
Record config := {
  heap : gmap nat (list (str * pyval));
  DEFAULT_CONFIG : nat;
  settings : nat
}.

(** [Config.get] from the value [v] on. *)
Fixpoint get_from (h : gmap nat (list (str * pyval))) (v : pyval)
    (keys : list str) : pyval :=
  match keys with
  | [] => v
  | key :: keys' =>
      match v with
      | PRef l =>
          match h !! l with
          | Some items =>
              match assoc key items with
              | Some x => get_from h x keys'
              | None => PNone
              end
          | None => PNone
          end
      | _ => PNone
      end
  end.

Definition get (c : config) (keys : list str) : pyval :=
  get_from (heap c) (PRef (settings c)) keys.

(** [Config.set] from the dictionary at [l] on: the heap after the call,
    [None] when it raises (no key, or a value that is no dictionary on
    the way).  A missing key gets a new empty dictionary, [{}]. *)
Fixpoint set_from (h : gmap nat (list (str * pyval))) (l : nat)
    (keys : list str) (v : pyval) : option (gmap nat (list (str * pyval))) :=
  match keys with
  | [] => None
  | [key] =>
      match h !! l with
      | Some items => Some (<[l := assign key v items]> h)
      | None => None
      end
  | key :: keys' =>
      match h !! l with
      | Some items =>
          match assoc key items with
          | Some (PRef l') => set_from h l' keys' v
          | Some _ => None
          | None =>
              let l' := fresh (dom h) in
              set_from (<[l' := []]> (<[l := assign key (PRef l') items]> h))
                l' keys' v
          end
      | None => None
      end
  end.

Definition set (c : config) (keys : list str) (v : pyval) : option config :=
  match set_from (heap c) (settings c) keys v with
  | Some h => Some {| heap := h; DEFAULT_CONFIG := DEFAULT_CONFIG c;
                      settings := settings c |}
  | None => None
  end.

(** [Config.reset_to_defaults], up to the [save()]:
    [self.settings = self.DEFAULT_CONFIG.copy()], a new dictionary with
    the items of the old one, references included.  The class attribute
    always exists; a heap without it is left alone. *)
Definition reset_to_defaults (c : config) : config :=
  match heap c !! DEFAULT_CONFIG c with
  | Some items =>
      let l := fresh (dom (heap c)) in
      {| heap := <[l := items]> (heap c);
         DEFAULT_CONFIG := DEFAULT_CONFIG c; settings := l |}
  | None => c
  end.

End PyObjects.

(** The defaults as objects: the outer dictionary at 0, the section
    [storage] at 1, and settings that are the defaults themselves. *)
Definition default_objects : PyObjects.config :=
  {| PyObjects.heap :=
       {[ 0 := [(lit "storage", PyObjects.PRef 1)];
          1 := [(lit "format", PyObjects.PStr (lit "png"))] ]};
     PyObjects.DEFAULT_CONFIG := 0;
     PyObjects.settings := 0 |}.
(** * Properties *)

#[local] Set Warnings "-clear-no-such-hyp".
#[local] Set Warnings "-level-tolerance".

Example split_ex : PyStr.split "_" (lit "a_b_") = [lit "a"; lit "b"; lit ""].
Proof. reflexivity. Qed.

Example replace_ex :
  PyStr.replace (lit ".png") [] (lit "a.pngb.png") = lit "ab".
Proof. reflexivity. Qed.

Example stem_ex :
  Pathlib.stem [lit "d"; lit "x.tar.gz"] = lit "x.tar"
  ∧ Pathlib.suffix [lit "d"; lit "x.tar.gz"] = lit ".gz"
  ∧ Pathlib.stem [lit ".png"] = lit ".png" ∧ Pathlib.suffix [lit "x."] = [].
Proof. repeat split; reflexivity. Qed.

(** ** Facts about the string functions *)

Section StringFacts.

Lemma replace_go_Forall (P : ascii → Prop) old new s k :
  Forall P new → Forall P s → Forall P (PyStr.replace_go old new k s).
Proof.
  intros Hnew Hs. revert k.
  induction Hs as [|c s Hc Hs IH]; intros k; simpl; [constructor|].
  destruct k as [|k]; [|apply IH].
  destruct (PyStr.startswith old (c :: s)).
  - apply Forall_app; split; [assumption|apply IH].
  - constructor; [assumption|apply IH].
Qed.

Lemma replace_Forall (P : ascii → Prop) old new s :
  Forall P new → Forall P s → Forall P (PyStr.replace old new s).
Proof. apply replace_go_Forall. Qed.

Variable isspace : ascii → bool.

Lemma lstrip_split s :
  ∃ pre, s = pre ++ PyStr.lstrip isspace s
         ∧ Forall (λ c, isspace c = true) pre
         ∧ (∀ c, head (PyStr.lstrip isspace s) = Some c → isspace c = false).
Proof.
  induction s as [|c s IH]; simpl.
  - exists []. repeat split; [constructor|discriminate].
  - destruct (isspace c) eqn:Hc.
    + destruct IH as (pre & Heq & Hpre & Hhd).
      exists (c :: pre). repeat split.
      * simpl. congruence.
      * constructor; assumption.
      * assumption.
    + exists []. repeat split; [constructor|].
      simpl. intros c' [= <-]. assumption.
Qed.

Lemma rstrip_split s :
  ∃ post, s = PyStr.rstrip isspace s ++ post
          ∧ Forall (λ c, isspace c = true) post
          ∧ (∀ c, last (PyStr.rstrip isspace s) = Some c → isspace c = false).
Proof.
  unfold PyStr.rstrip.
  destruct (lstrip_split (reverse s)) as (pre & Heq & Hpre & Hhd).
  exists (reverse pre). repeat split.
  - rewrite <- reverse_app, <- Heq, reverse_involutive. reflexivity.
  - apply Forall_reverse. assumption.
  - intros c Hc. apply Hhd. rewrite last_reverse in Hc. assumption.
Qed.

Lemma strip_trimmed s : trimmed_of isspace s (PyStr.strip isspace s).
Proof.
  unfold PyStr.strip.
  destruct (lstrip_split s) as (pre & Heq & Hpre & Hhd).
  destruct (rstrip_split (PyStr.lstrip isspace s)) as (post & Heq' & Hpost & Hlast).
  split; [|split].
  - exists pre, post. rewrite <- Heq'. auto.
  - intros c Hc. apply Hhd. rewrite Heq'.
    destruct (PyStr.rstrip isspace (PyStr.lstrip isspace s)); [discriminate|].
    assumption.
  - assumption.
Qed.

Lemma strip_Forall (P : ascii → Prop) s :
  Forall P s → Forall P (PyStr.strip isspace s).
Proof.
  intros Hs. destruct (strip_trimmed s) as [(pre & post & Heq & _) _].
  rewrite Heq in Hs. apply Forall_app in Hs as [_ Hs].
  apply Forall_app in Hs as [Hs _]. assumption.
Qed.

End StringFacts.

(** ** The naming engine *)

Section NamingFacts.

Variable strftime : str → str.
Variable isalnum : ascii → bool.
Variable isspace : ascii → bool.

Lemma safe_name_allowed w :
  Forall (λ c, allowed isalnum c = true) (safe_name isalnum isspace w).
Proof.
  unfold safe_name. apply Forall_take, strip_Forall.
  apply Forall_forall. intros c Hc. apply list_elem_of_filter in Hc. tauto.
Qed.

Lemma allowed_not_sep c :
  isalnum "/"%char = false → isalnum "\"%char = false →
  allowed isalnum c = true → c ≠ "/"%char ∧ c ≠ "\"%char.
Proof.
  intros H1 H2 Hc. split; intros ->; unfold allowed in Hc;
    [rewrite H1 in Hc|rewrite H2 in Hc]; discriminate.
Qed.

(** C7. [generate_filename] returns a name that ends in a dot followed
    by the configured format and, for a pattern whose date expansion and a
    format that hold no path separator, holds none itself.  The name is
    the expanded pattern with the window placeholder replaced by a token:
    [screen] when no (or an empty) window name is given, and otherwise the
    window name reduced to its alphanumeric, space, hyphen and underscore
    characters, trimmed, and cut to its first 50 characters. *)
Theorem generate_filename_spec (cfg : Config) (window_name : option str) :
  isalnum "/"%char = false →
  isalnum "\"%char = false →
  sep_free (strftime (naming_pattern cfg)) →
  sep_free (format cfg) →
  let f := generate_filename strftime isalnum isspace cfg window_name in
  (lit "." ++ format cfg) `suffix_of` f
  ∧ sep_free f
  ∧ ∃ token,
      f = PyStr.replace (lit "{window}") token (strftime (naming_pattern cfg))
            ++ lit "." ++ format cfg
      ∧ match window_name with
        | Some (c :: w) =>
            (∃ t, trimmed_of isspace
                    (filter (λ x, allowed isalnum x = true) (c :: w)) t
                  ∧ token = take 50 t)
            ∧ Forall (λ x, isalnum x = true ∨ x = " "%char
                           ∨ x = "-"%char ∨ x = "_"%char) token
            ∧ length token ≤ 50
        | _ => token = lit "screen"
        end.
Proof.
  intros Hs Hb Hpat Hext f.
  assert (Hdot : sep_free (lit ".")) by (repeat constructor; discriminate).
  split; [|split].
  - unfold f, generate_filename. eexists. reflexivity.
  - unfold f, generate_filename.
    destruct (PyStr.truthy window_name).
    + apply Forall_app; split; [|apply Forall_app; split; assumption].
      apply replace_Forall; [|assumption].
      eapply Forall_impl; [apply safe_name_allowed|].
      intros c. apply allowed_not_sep; assumption.
    + apply Forall_app; split; [|apply Forall_app; split; assumption].
      apply replace_Forall; [|assumption].
      repeat constructor; discriminate.
  - unfold f, generate_filename.
    destruct window_name as [[|c w]|]; simpl PyStr.truthy; cbv iota.
    + eexists; split; reflexivity.
    + exists (safe_name isalnum isspace (c :: w)). split; [reflexivity|].
      split; [|split].
      * eexists; split; [apply strip_trimmed|reflexivity].
      * eapply Forall_impl; [apply safe_name_allowed|].
        intros x Hx. unfold allowed in Hx.
        repeat (apply orb_true_iff in Hx as [Hx|Hx]);
          try apply bool_decide_eq_true in Hx; auto.
      * unfold safe_name. rewrite length_take. lia.
    + eexists; split; reflexivity.
Qed.

End NamingFacts.

(** A witness of [generate_filename_spec]: the default pattern at a fixed
    time, format [png], window title [ My App: notes/1 ]. *)
Lemma generate_filename_spec_witness :
  let cfg := {| naming_pattern := lit "20240101_120000_{window}";
                format := lit "png"; organize_by := lit "none";
                base_path := [lit "shots"];
                auto_delete_enabled := false; days_to_keep := 30 |} in
  let f := generate_filename (λ p, p) PyStr.ascii_isalnum PyStr.ascii_isspace
             cfg (Some (lit " My App: notes/1 ")) in
  f = lit "20240101_120000_My App notes1.png" ∧ sep_free f.
Proof.
  intros cfg f. split; [reflexivity|].
  refine (proj1 (proj2 (generate_filename_spec (λ p, p) PyStr.ascii_isalnum
            PyStr.ascii_isspace cfg (Some (lit " My App: notes/1 ")) _ _ _ _))).
  - reflexivity.
  - reflexivity.
  - repeat constructor; discriminate.
  - repeat constructor; discriminate.
Defined.

(** ** The collision resolver *)

Section Resolver.

Lemma lit_inj s t : lit s = lit t → s = t.
Proof.
  unfold lit. intros H.
  rewrite <- (String.string_of_list_ascii_of_string s),
          <- (String.string_of_list_ascii_of_string t).
  congruence.
Qed.

Lemma joinpath_cons p c seg :
  Pathlib.joinpath p (c :: seg) = p ++ [c :: seg].
Proof. reflexivity. Qed.

Lemma numbered_inj orig j k : numbered orig j = numbered orig k → j = k.
Proof.
  unfold numbered.
  destruct (Pathlib.stem orig ++ lit "_" ++ lit (pretty j) ++ Pathlib.suffix orig)
    as [|a sj] eqn:Ej.
  { destruct (Pathlib.stem orig); discriminate. }
  destruct (Pathlib.stem orig ++ lit "_" ++ lit (pretty k) ++ Pathlib.suffix orig)
    as [|b sk] eqn:Ek.
  { destruct (Pathlib.stem orig); discriminate. }
  rewrite !joinpath_cons. intros H.
  apply app_inj_tail in H as [_ H]. rewrite <- Ej, <- Ek in H.
  apply app_inv_head in H. simpl in H. injection H as H'.
  apply app_inv_tail in H'. apply lit_inj in H'.
  apply (inj pretty) in H'. assumption.
Qed.

Variable fs : gset Path.
Variable orig : Path.

Lemma elem_of_tried p c : p ∈ tried orig c ↔ ∃ j, j < c ∧ p = numbered orig j.
Proof.
  unfold tried. rewrite elem_of_list_to_set, list_elem_of_fmap.
  split.
  - intros (j & -> & Hj). apply elem_of_seq in Hj. exists j. split; [lia|done].
  - intros (j & Hj & ->). exists j. split; [done|]. apply elem_of_seq. lia.
Qed.

(** Each round of the loop that finds its path taken removes one
    element from the part of the file system not yet passed, so the loop
    ends within [size fs] such rounds. *)
Lemma resolve_numbered fuel : ∀ c,
  size (fs ∖ tried orig c) < fuel →
  (∀ j, 1 ≤ j < c → numbered orig j ∈ fs) →
  ∃ k, c ≤ k
       ∧ resolve fuel fs orig (numbered orig c) (S c) = Some (numbered orig k)
       ∧ (numbered orig k ∉ fs)
       ∧ ∀ j, 1 ≤ j < k → numbered orig j ∈ fs.
Proof.
  induction fuel as [|fuel IH]; intros c Hsize Hbelow; [lia|].
  simpl. unfold Fs.exists_. case_bool_decide as Hin.
  - destruct (IH (S c)) as (k & Hk & Hres & Hfree & Hall).
    + assert (fs ∖ tried orig (S c) ⊂ fs ∖ tried orig c) as Hsub.
      { split.
        - intros p. rewrite !elem_of_difference, !elem_of_tried.
          intros [Hp Hn]. split; [done|].
          intros (j & Hj & ->). apply Hn. exists j. split; [lia|done].
        - intros Hsub. specialize (Hsub (numbered orig c)).
          rewrite !elem_of_difference, !elem_of_tried in Hsub.
          destruct Hsub as [_ Hn].
          + split; [done|]. intros (j & Hj & Heq).
            apply numbered_inj in Heq. lia.
          + apply Hn. exists c. split; [lia|done]. }
      apply subset_size in Hsub. lia.
    + intros j Hj. destruct (decide (j = c)) as [->|]; [done|].
      apply Hbelow. lia.
    + exists k. split; [lia|done].
  - exists c. split; [lia|]. split; [done|]. split; [done|].
    intros j Hj. apply Hbelow. done.
Qed.

Lemma resolve_spec fuel :
  size fs + 2 ≤ fuel →
  ∃ r, resolve fuel fs orig orig 1 = Some r ∧ resolution fs orig r.
Proof.
  intros Hfuel. destruct fuel as [|fuel]; [lia|].
  simpl. unfold Fs.exists_. case_bool_decide as Hin.
  - destruct (resolve_numbered fuel 1) as (k & Hk & Hres & Hfree & Hall).
    + assert (size (fs ∖ tried orig 1) ≤ size fs); [|lia].
      apply subseteq_size. set_solver.
    + intros j Hj. lia.
    + exists (numbered orig k). split; [done|]. split; [done|].
      right. split; [done|]. exists k. done.
  - exists orig. split; [done|]. split; [done|]. left. done.
Qed.

(** The result does not depend on the fuel, once there is enough. *)
Lemma resolve_fuel_irrelevant fuel fuel' p c r r' :
  resolve fuel fs orig p c = Some r →
  resolve fuel' fs orig p c = Some r' → r = r'.
Proof.
  revert fuel' p c. induction fuel as [|fuel IH]; intros [|fuel'] p c;
    simpl; try discriminate.
  destruct (Fs.exists_ fs p); [apply IH|congruence].
Qed.

End Resolver.

Section SavingFacts.

Variable strftime : str → str.
Variable isalnum : ascii → bool.
Variable isspace : ascii → bool.

Lemma save_screenshot_spec env cfg fuel now image window_name mode w :
  size (files w) + 2 ≤ fuel →
  ∃ p w',
    save_screenshot strftime isalnum isspace env cfg fuel now image
      window_name mode w = Some (p, w')
    ∧ resolution (files w) (get_save_path strftime cfg
           (generate_filename strftime isalnum isspace cfg window_name)) p
    ∧ files w' = files w ∪ {[p]}.
Proof.
  intros Hfuel. unfold save_screenshot.
  destruct (resolve_spec (files w) (get_save_path strftime cfg
           (generate_filename strftime isalnum isspace cfg window_name)) fuel Hfuel)
    as (p & Hres & Hp).
  rewrite Hres.
  eexists _, _. split; [reflexivity|]. split; [exact Hp|reflexivity].
Qed.

Lemma save_all_spec env cfg fuel now window_name mode images : ∀ w,
  size (files w) + length images + 2 ≤ fuel →
  ∃ paths w',
    save_all strftime isalnum isspace env cfg fuel now window_name mode
      images w = Some (paths, w')
    ∧ length paths = length images
    ∧ files w' = files w ∪ list_to_set paths
    ∧ NoDup paths
    ∧ Forall (λ p, p ∉ files w) paths
    ∧ ∀ i p, paths !! i = Some p →
        resolution (files w ∪ list_to_set (take i paths))
          (get_save_path strftime cfg
           (generate_filename strftime isalnum isspace cfg window_name)) p.
Proof.
  induction images as [|image images IH]; intros w Hfuel; simpl.
  - exists [], w. split; [done|]. split; [done|].
    split; [set_solver|]. split; [constructor|]. split; [constructor|].
    intros i p Hi. rewrite lookup_nil in Hi. discriminate.
  - simpl in Hfuel.
    destruct (save_screenshot_spec env cfg fuel now image window_name mode w)
      as (p & w1 & Hsave & Hp & Hfiles); [lia|].
    rewrite Hsave.
    destruct (IH w1) as (ps & w2 & Hall & Hlen & Hfiles2 & Hnd & Hfresh & Hres).
    { rewrite Hfiles. pose proof (size_union_alt (files w) {[p]}) as Hsz.
      assert (size ({[p]} ∖ files w : gset Path) ≤ 1).
      { rewrite <- (size_singleton (C:=gset Path) p).
        apply subseteq_size. set_solver. }
      lia. }
    rewrite Hall. exists (p :: ps), w2.
    assert (Hpfree : p ∉ files w) by apply Hp.
    split; [done|]. split; [simpl; lia|].
    split; [rewrite Hfiles2, Hfiles; set_solver|].
    split.
    { constructor; [|done]. intros Hin.
      rewrite Forall_forall in Hfresh. apply (Hfresh p Hin).
      rewrite Hfiles. set_solver. }
    split.
    { constructor; [done|]. eapply Forall_impl; [exact Hfresh|].
      intros q Hq. rewrite Hfiles in Hq. set_solver. }
    intros [|i] q Hi; simpl in Hi.
    + injection Hi as <-. simpl.
      rewrite (right_id_L ∅ (∪)). exact Hp.
    + specialize (Hres i q Hi). rewrite Hfiles in Hres. simpl.
      rewrite (assoc_L (∪)). exact Hres.
Qed.

End SavingFacts.

(** Three saves of one window within one second, flat storage: three
    files and three rows. *)
Example save_three :
  (λ r : list Path * world, (r.1, size (files r.2), size (table (db r.2)))) <$>
    save_all (λ p, p) PyStr.ascii_isalnum PyStr.ascii_isspace healthy
      example_config 5 0 (Some (lit "Chrome")) (lit "fullscreen")
      [example_image; example_image; example_image] empty_world
  = Some ([ [lit "shots"; lit "20240101_120000_Chrome.png"];
            [lit "shots"; lit "20240101_120000_Chrome_1.png"];
            [lit "shots"; lit "20240101_120000_Chrome_2.png"] ], 3, 3).
Proof. vm_compute. reflexivity. Qed.

(** ** The path organizer, mode [application] *)

Example application_png :
  get_save_path (λ p, p) by_application (lit "20240101_120000_Chrome.png")
  = [lit "shots"; lit "Chrome"; lit "20240101_120000_Chrome.png"].
Proof. reflexivity. Qed.

Example application_no_underscore :
  get_save_path (λ p, p) by_application (lit "capture.png")
  = [lit "shots"; lit "unknown"; lit "capture.png"].
Proof. reflexivity. Qed.

Example date_directory :
  get_save_path (λ _, lit "2024/01/02")
    {| naming_pattern := lit "%Y%m%d_%H%M%S_{window}"; format := lit "png";
       organize_by := lit "date"; base_path := [lit "shots"];
       auto_delete_enabled := false; days_to_keep := 30 |}
    (lit "test.png")
  = [lit "shots"; lit "2024"; lit "01"; lit "02"; lit "test.png"].
Proof. reflexivity. Qed.

(** A name whose last segment is only the extension gets no directory of
    its own, not [unknown]. *)
Example application_empty_token :
  get_save_path (λ p, p) by_application (lit "20240101_120000_.png")
  = [lit "shots"; lit "20240101_120000_.png"].
Proof. reflexivity. Qed.

(** C9, at the failing input.  With the format [bmp], which the settings
    offer next to [png] and [jpg], the directory is named after the whole
    last segment, extension included: [shots/Chrome.bmp/]. *)
Theorem application_dir_keeps_bmp :
  generate_filename (λ _, lit "20240101_120000_{window}") PyStr.ascii_isalnum
    PyStr.ascii_isspace by_application (Some (lit "Chrome"))
  = lit "20240101_120000_Chrome.bmp"
  ∧ get_save_path (λ p, p) by_application (lit "20240101_120000_Chrome.bmp")
    = [lit "shots"; lit "Chrome.bmp"; lit "20240101_120000_Chrome.bmp"].
Proof. split; reflexivity. Qed.

(** ** The catalog: insert *)

Lemma filepath_taken_true p (t : gmap Z screenshot) :
  Sql.filepath_taken p t = true ↔ ∃ i r, t !! i = Some r ∧ filepath r = p.
Proof.
  unfold Sql.filepath_taken. rewrite existsb_exists. split.
  - intros ([i r] & Hin & Heq). apply bool_decide_eq_true in Heq.
    exists i, r. split; [|done].
    apply elem_of_map_to_list. apply list_elem_of_In. done.
  - intros (i & r & Hl & Heq). exists (i, r). split.
    + apply list_elem_of_In. apply elem_of_map_to_list. done.
    + apply bool_decide_eq_true. done.
Qed.

(** C4. Inserting a record whose [filepath] is already in the catalog
    raises nothing and leaves the catalog as it was: the row that holds the
    path keeps every field and no row is added. *)
Theorem add_to_history_duplicate env now d filename filepath' window_name
    capture_mode width height file_size :
  (∃ i r, table d !! i = Some r ∧ filepath r = filepath') →
  _add_to_history env now d filename filepath' window_name capture_mode
    width height file_size = d.
Proof.
  intros Htaken. apply filepath_taken_true in Htaken.
  unfold _add_to_history, Sql.insert, call. simpl.
  destruct (env Connect); [reflexivity|]. simpl.
  destruct (env Execute); [reflexivity|]. simpl.
  rewrite Htaken. reflexivity.
Qed.

(** A witness of [add_to_history_duplicate]: a second insert of the path
    of row 1, with other metadata. *)
Lemma add_to_history_duplicate_witness :
  _add_to_history healthy 2000 example_db (lit "a.png")
    [lit "shots"; lit "a.png"] None (lit "region") 5 5 77 = example_db.
Proof.
  apply (add_to_history_duplicate healthy 2000 example_db).
  exists 1%Z, example_row. split; reflexivity.
Defined.

(** An insert of a path not yet in the catalog, on a healthy database,
    adds a row under a new id. *)
Lemma add_to_history_fresh now d filename filepath' window_name capture_mode
    width height file_size :
  Sql.filepath_taken filepath' (table d) = false →
  table (_add_to_history healthy now d filename filepath' window_name
           capture_mode width height file_size)
  = <[Sql.next_rowid d :=
        {| filename := filename; filepath := filepath';
           window_name := window_name; capture_mode := capture_mode;
           timestamp := now; width := width; height := height;
           file_size := file_size; tags := None; notes := None |}]> (table d).
Proof.
  intros Hfree. unfold _add_to_history, Sql.insert, call. simpl.
  rewrite Hfree. reflexivity.
Qed.

(** ** The catalog: delete *)


Example delete_twice :
  let w := {| files := {[ [lit "shots"; lit "a.png"] ]}; db := example_db |} in
  let '(first, w1) := delete_screenshot healthy w 1 in
  let '(second, w2) := delete_screenshot healthy w1 1 in
  first = true ∧ second = false ∧ files w1 = ∅ ∧ table (db w1) = ∅ ∧ w2 = w1.
Proof. vm_compute. repeat split. Qed.


(** ** The catalog: failures while listing *)

(** C10. [get_history] has no exceptional outcome.  When a call into the
    database made on its way raises (opening it included), it returns the
    empty list, which is also what it returns for an empty catalog. *)
Theorem get_history_swallows env d limit offset search_term :
  env Connect = true ∨ env Execute = true ∨ env Fetch = true →
  (∃ e, get_history_body env d limit offset search_term = Raise e)
  ∧ get_history env d limit offset search_term = []
  ∧ get_history env d limit offset search_term
    = get_history healthy empty_catalog limit offset search_term.
Proof.
  intros Hfail.
  assert (Hempty : get_history healthy empty_catalog limit offset search_term = []).
  { unfold get_history, get_history_body, call. simpl.
    destruct (Sql.bind_int limit) as [limit1|]; [|reflexivity]. simpl.
    destruct (Sql.bind_int offset) as [offset1|]; [|reflexivity]. simpl.
    rewrite map_to_list_empty.
    assert (Hnil : Sql.limit_offset limit1 offset1 (@nil (Z * screenshot)) = []).
    { unfold Sql.limit_offset. rewrite drop_nil.
      destruct (limit1 <? 0)%Z; [done|apply take_nil]. }
    destruct (PyStr.truthy search_term); exact Hnil. }
  rewrite Hempty.
  unfold get_history, get_history_body, call.
  destruct (env Connect) eqn:Hc; simpl; [eauto|].
  destruct (env Execute) eqn:He; simpl; [eauto|].
  destruct (Sql.bind_int limit) as [limit1|]; simpl; [|eauto].
  destruct (Sql.bind_int offset) as [offset1|]; simpl; [|eauto].
  destruct (if PyStr.truthy search_term then _ else _) as [selected|];
    simpl; [|eauto].
  destruct (env Fetch) eqn:Hf; simpl; [eauto|].
  destruct Hfail as [?|[?|?]]; discriminate.
Qed.

(** A witness of [get_history_swallows]: the database cannot be opened. *)
Lemma get_history_swallows_witness :
  get_history (λ c, match c with Connect => true | _ => false end)
    example_db 100 0 None = [].
Proof.
  refine (proj1 (proj2 (get_history_swallows _ example_db 100 0 None _))).
  left. reflexivity.
Defined.

Example get_history_example :
  get_history healthy example_db 100 0 (Some (lit "chro")) = [(1%Z, example_row)]
  ∧ get_history healthy example_db 100 0 (Some (lit "firefox")) = [].
Proof. split; vm_compute; reflexivity. Qed.

(** ** The retention sweep *)


(** The loop: no round raises, whether or not the file is there. *)
Lemma cleanup_fold (items : list (Z * Path)) : ∀ fs d n,
  ∃ fs' d' n',
    foldl cleanup_step (Ok (fs, d, n)) items = Ok (fs', d', n')
    ∧ fs' = fs ∖ list_to_set items.*2
    ∧ table d' = foldl (λ t i, delete i t) (table d) items.*1
    ∧ size fs + n = size fs' + n'
    ∧ n' ≤ n + length items.
Proof.
  induction items as [|[i p] items IH]; intros fs d n; simpl.
  - exists fs, d, n. split; [done|]. split; [set_solver|]. split; [done|]. lia.
  - unfold Fs.exists_, Fs.unlink. case_bool_decide as Hin; simpl.
    + destruct (IH (fs ∖ {[p]}) (Sql.delete_id i d) (S n))
        as (fs' & d' & n' & Hrun & Hfs & Ht & Hsz & Hle).
      exists fs', d', n'. split; [done|]. split; [set_solver|].
      split; [done|]. split; [|lia].
      assert (size fs = 1 + size (fs ∖ {[p]})) as Hs.
      { rewrite (union_difference_singleton_L p fs Hin) at 1.
        rewrite size_union by set_solver. rewrite size_singleton. done. }
      lia.
    + destruct (IH fs (Sql.delete_id i d) n)
        as (fs' & d' & n' & Hrun & Hfs & Ht & Hsz & Hle).
      exists fs', d', n'. split; [done|]. split; [set_solver|].
      split; [done|]. split; lia.
Qed.

(** The cutoff of a sweep, when the days and the date are in range. *)
Lemma cutoff_date_ok now days :
  (-999999999 ≤ days ≤ 999999999)%Z →
  (0 ≤ now - days * Datetime.day ≤ Datetime.max)%Z →
  cutoff_date now days = Ok (now - days * Datetime.day)%Z.
Proof.
  intros Hd Hc. unfold cutoff_date, Datetime.timedelta.
  rewrite bool_decide_eq_true_2 by exact Hd. simpl. unfold Datetime.sub.
  rewrite bool_decide_eq_true_2 by exact Hc. reflexivity.
Qed.




(** ** The catalog: search *)

Lemma like_percent p s :
  Sql.like ("%"%char :: p) s
  = Sql.like p s || match s with
                    | [] => false
                    | _ :: s' => Sql.like ("%"%char :: p) s'
                    end.
Proof. destruct s; reflexivity. Qed.

Lemma like_char c p s :
  c ≠ "%"%char → c ≠ "_"%char →
  Sql.like (c :: p) s
  = match s with
    | [] => false
    | d :: s' => bool_decide (Sql.lower c = Sql.lower d) && Sql.like p s'
    end.
Proof.
  intros H1 H2. cbn [Sql.like].
  rewrite (bool_decide_eq_false_2 _ H1), (bool_decide_eq_false_2 _ H2).
  reflexivity.
Qed.

Lemma like_percent_only s : Sql.like (lit "%") s = true.
Proof.
  induction s as [|c s IH]; [reflexivity|].
  change (lit "%") with ["%"%char] in *.
  rewrite like_percent, IH. apply orb_true_r.
Qed.

(** A wildcard-free term followed by [%] matches the strings that start
    with the term, up to case. *)
Lemma like_term_percent term : wildcard_free term → ∀ s,
  Sql.like (term ++ lit "%") s = prefix_ci term s.
Proof.
  induction 1 as [|c term [H1 H2] _ IH]; intros s.
  - rewrite like_percent_only. destruct s; reflexivity.
  - cbn [app]. rewrite like_char by done.
    destruct s as [|d s]; [reflexivity|]. cbn [prefix_ci]. rewrite IH. done.
Qed.

Lemma like_search_pattern term s :
  wildcard_free term →
  Sql.like (lit "%" ++ term ++ lit "%") s = contains_ci term s.
Proof.
  intros Hfree. change (lit "%" ++ term ++ lit "%")
    with ("%"%char :: (term ++ lit "%")).
  induction s as [|c s IH].
  - rewrite like_percent, like_term_percent by done.
    reflexivity.
  - rewrite like_percent, like_term_percent, IH by done. reflexivity.
Qed.

Lemma prefix_ci_spec term : ∀ s,
  prefix_ci term s = true
  ↔ ∃ mid post, s = mid ++ post ∧ Sql.lower <$> mid = Sql.lower <$> term.
Proof.
  induction term as [|c term IH]; intros s.
  - split; [|done]. intros _. exists [], s. done.
  - destruct s as [|d s]; cbn [prefix_ci].
    + split; [discriminate|]. intros (mid & post & Heq & Hci).
      destruct mid; discriminate.
    + rewrite andb_true_iff, bool_decide_eq_true, IH. split.
      * intros (Hcd & mid & post & -> & Hci). exists (d :: mid), post.
        split; [done|]. cbn [fmap list_fmap]. fold (fmap Sql.lower mid).
        fold (fmap Sql.lower term). congruence.
      * intros (mid & post & Heq & Hci). destruct mid as [|m mid]; [discriminate|].
        injection Heq as -> ->. injection Hci as Hm Hci.
        split; [done|]. exists mid, post. done.
Qed.

Lemma contains_ci_spec term : ∀ s, contains_ci term s = true ↔ occurs_ci term s.
Proof.
  induction s as [|c s IH]; cbn [contains_ci];
    rewrite orb_true_iff, prefix_ci_spec.
  - split.
    + intros [(mid & post & Heq & Hci)|?]; [|discriminate].
      exists [], mid, post. done.
    + intros (pre & mid & post & Heq & Hci). left.
      destruct pre; [|discriminate]. exists mid, post. done.
  - rewrite IH. split.
    + intros [(mid & post & Heq & Hci)|(pre & mid & post & Heq & Hci)].
      * exists [], mid, post. done.
      * exists (c :: pre), mid, post. split; [|done]. rewrite Heq. done.
    + intros (pre & mid & post & Heq & Hci). destruct pre as [|a pre].
      * left. exists mid, post. done.
      * right. injection Heq as -> ->. exists pre, mid, post. done.
Qed.

Lemma column_contains_ci_spec term column :
  column_contains_ci term column = true ↔ occurs_in_column term column.
Proof.
  destruct column as [s|]; unfold occurs_in_column; cbn [column_contains_ci].
  - rewrite contains_ci_spec. split.
    + intros H. exists s. done.
    + intros (s' & [= <-] & H). done.
  - split; [discriminate|]. intros (s & ? & _). discriminate.
Qed.

(** *** C strings, pattern lengths and 64-bit integers *)

Lemma c_str_id s : "000"%char ∉ s → Sql.c_str s = s.
Proof.
  induction s as [|c s IH]; intros Hs; [reflexivity|]. cbn [Sql.c_str].
  apply not_elem_of_cons in Hs as [Hc Hs].
  rewrite bool_decide_eq_false_2 by congruence. rewrite (IH Hs). reflexivity.
Qed.

Lemma c_str_no_NUL s : "000"%char ∉ Sql.c_str s.
Proof.
  induction s as [|c s IH]; cbn [Sql.c_str]; [apply not_elem_of_nil|].
  case_bool_decide as Hc; [apply not_elem_of_nil|].
  apply not_elem_of_cons. split; [congruence|exact IH].
Qed.

Lemma search_pattern_c_str term :
  "000"%char ∉ term →
  Sql.c_str (lit "%" ++ term ++ lit "%") = lit "%" ++ term ++ lit "%".
Proof.
  intros Hterm. apply c_str_id. rewrite !elem_of_app.
  intros [H|[H|H]]; [|done|];
    apply list_elem_of_singleton in H; discriminate.
Qed.

Lemma lower_NUL c : Sql.lower c = "000"%char → c = "000"%char.
Proof. destruct c as [[] [] [] [] [] [] [] []]; vm_compute; congruence. Qed.

(** A term that occurs in a text without NUL holds no NUL. *)
Lemma occurs_ci_no_NUL term s :
  "000"%char ∉ s → occurs_ci term s → "000"%char ∉ term.
Proof.
  intros Hs (pre & mid & post & -> & Hci) Hin.
  apply Hs. rewrite !elem_of_app. right. left.
  apply (list_elem_of_fmap_2 Sql.lower) in Hin. rewrite <- Hci in Hin.
  apply list_elem_of_fmap in Hin as (c & Hc & Hin).
  change (Sql.lower "000") with "000"%char in Hc. symmetry in Hc.
  apply lower_NUL in Hc. subst c. exact Hin.
Qed.

Lemma utf8_length_app s t :
  Sql.utf8_length (s ++ t) = (Sql.utf8_length s + Sql.utf8_length t)%Z.
Proof. unfold Sql.utf8_length. rewrite sum_list_with_app. lia. Qed.

Lemma search_pattern_length term :
  Sql.utf8_length (lit "%" ++ term ++ lit "%") = (Sql.utf8_length term + 2)%Z.
Proof.
  rewrite !utf8_length_app.
  change (Sql.utf8_length (lit "%")) with 1%Z. lia.
Qed.

Lemma likeFunc_ok p column :
  (Sql.utf8_length p ≤ 50000)%Z →
  Sql.likeFunc p column = Ok (Sql.like_null p column).
Proof.
  intros Hlen. unfold Sql.likeFunc, Sql.SQLITE_MAX_LIKE_PATTERN_LENGTH.
  rewrite bool_decide_eq_false_2 by lia. reflexivity.
Qed.

Lemma search_hit_ok term r :
  (Sql.utf8_length term + 2 ≤ 50000)%Z →
  search_hit term r = Ok (search_match term r).
Proof.
  intros Hlen. unfold search_hit, search_match.
  rewrite !likeFunc_ok by (rewrite search_pattern_length; lia).
  reflexivity.
Qed.

(** A pattern of more than 50000 bytes: the query raises at its first
    row. *)
Lemma search_hit_too_complex term r :
  (50000 < Sql.utf8_length term + 2)%Z →
  search_hit term r = Raise OperationalError.
Proof.
  intros Hlen. unfold search_hit, Sql.likeFunc,
    Sql.SQLITE_MAX_LIKE_PATTERN_LENGTH.
  rewrite bool_decide_eq_true_2 by (rewrite search_pattern_length; lia).
  reflexivity.
Qed.

Lemma where_ok {A} (cond : A → result bool) (f : A → bool) rows :
  (∀ r, cond r = Ok (f r)) →
  Sql.where_ cond rows = Ok (filter (λ r, f r = true) rows).
Proof.
  intros Hcond. induction rows as [|r rows IH]; [reflexivity|].
  cbn [Sql.where_]. rewrite Hcond, IH. simpl.
  rewrite filter_cons. destruct (f r); reflexivity.
Qed.

Lemma where_sublist {A} (cond : A → result bool) rows : ∀ selected,
  Sql.where_ cond rows = Ok selected → selected `sublist_of` rows.
Proof.
  induction rows as [|r rows IH]; intros selected; cbn [Sql.where_].
  - intros [= <-]. reflexivity.
  - destruct (cond r) as [b|]; [|discriminate]. simpl.
    destruct (Sql.where_ cond rows) as [l|]; [|discriminate]. simpl.
    intros [= <-]. specialize (IH l eq_refl).
    destruct b; [apply sublist_skip|apply sublist_cons]; exact IH.
Qed.

Lemma bind_int_ok n :
  (- 2 ^ 63 ≤ n < 2 ^ 63)%Z → Sql.bind_int n = Ok n.
Proof.
  intros Hn. unfold Sql.bind_int. rewrite bool_decide_eq_true_2 by exact Hn.
  reflexivity.
Qed.

Lemma bind_int_cases n :
  Sql.bind_int n = Ok n ∨ Sql.bind_int n = Raise OverflowError.
Proof. unfold Sql.bind_int. case_bool_decide; auto. Qed.

(** *** The search on a wildcard-free term *)

Lemma like_null_search term column :
  wildcard_free term → "000"%char ∉ term →
  Sql.like_null (lit "%" ++ term ++ lit "%") column
  = column_contains_ci term column.
Proof.
  intros Hfree Hnul. destruct column as [s|]; [|reflexivity].
  cbn [Sql.like_null column_contains_ci].
  rewrite search_pattern_c_str by exact Hnul.
  apply like_search_pattern. exact Hfree.
Qed.

Lemma search_hit_spec term r :
  wildcard_free term → "000"%char ∉ term →
  search_match term r = true ↔ occurs_in_record term r.
Proof.
  intros Hfree Hnul. unfold search_match, occurs_in_record.
  rewrite !orb_true_iff, !like_null_search by done.
  rewrite <- !column_contains_ci_spec. tauto.
Qed.

Local Instance newer_first_total : Total Sql.newer_first.
Proof. intros a b. unfold Sql.newer_first. lia. Qed.

Local Instance newer_first_trans : Transitive Sql.newer_first.
Proof. intros a b c. unfold Sql.newer_first. lia. Qed.

Lemma limit_offset_all {A} (l : list A) : Sql.limit_offset (-1) 0 l = l.
Proof. reflexivity. Qed.

(** The listing on a database whose calls succeed, with a limit and an
    offset of 64 bits and a term that makes a pattern of at most 50000
    bytes. *)
Lemma get_history_healthy d limit offset search_term :
  (- 2 ^ 63 ≤ limit < 2 ^ 63)%Z → (- 2 ^ 63 ≤ offset < 2 ^ 63)%Z →
  (Sql.utf8_length (default [] search_term) + 2 ≤ 50000)%Z →
  get_history healthy d limit offset search_term
  = Sql.limit_offset limit offset
      (Sql.order_by_timestamp_desc
         (if PyStr.truthy search_term
          then filter (λ kr, search_match (default [] search_term) kr.2 = true)
                 (map_to_list (table d))
          else map_to_list (table d))).
Proof.
  intros Hlimit Hoffset Hlen. unfold get_history, get_history_body, call.
  simpl. rewrite (bind_int_ok limit Hlimit). simpl.
  rewrite (bind_int_ok offset Hoffset). simpl.
  destruct (PyStr.truthy search_term); [|reflexivity].
  rewrite (where_ok _ (λ kr, search_match (default [] search_term) kr.2)).
  - reflexivity.
  - intros kr. apply search_hit_ok. exact Hlen.
Qed.

(** A page of the one row of the example catalog. *)
Lemma limit_offset_example limit :
  (1 ≤ limit)%Z →
  Sql.limit_offset limit 0
    (Sql.order_by_timestamp_desc
       (if PyStr.truthy None
        then filter (λ kr, search_match (default [] None) kr.2 = true)
               (map_to_list (table example_db))
        else map_to_list (table example_db)))
  = [(1%Z, example_row)].
Proof.
  intros Hlimit. cbn [PyStr.truthy].
  assert (Hrows : Sql.order_by_timestamp_desc (map_to_list (table example_db))
                  = [(1%Z, example_row)]) by (vm_compute; reflexivity).
  rewrite Hrows. unfold Sql.limit_offset.
  replace (limit <? 0)%Z with false by lia.
  change (drop (Z.to_nat 0) [(1%Z, example_row)]) with [(1%Z, example_row)].
  apply take_ge. simpl. lia.
Qed.

Lemma get_history_unlimited d search_term :
  (Sql.utf8_length (default [] search_term) + 2 ≤ 50000)%Z →
  get_history healthy d (-1) 0 search_term
  = Sql.order_by_timestamp_desc
      (if PyStr.truthy search_term
       then filter (λ kr, search_match (default [] search_term) kr.2 = true)
              (map_to_list (table d))
       else map_to_list (table d)).
Proof.
  intros Hlen. rewrite get_history_healthy by (lia || exact Hlen).
  apply limit_offset_all.
Qed.

(** The rows of a query, ordered: the selected rows, each once, newest
    first. *)
Lemma ordered_selection (P : Z * screenshot → Prop) `{∀ x, Decision (P x)}
    (t : gmap Z screenshot) :
  let l := Sql.order_by_timestamp_desc (filter P (map_to_list t)) in
  (∀ i r, (i, r) ∈ l ↔ t !! i = Some r ∧ P (i, r))
  ∧ NoDup l
  ∧ StronglySorted Sql.newer_first l.
Proof.
  intros l. unfold l, Sql.order_by_timestamp_desc. split; [|split].
  - intros i r. rewrite merge_sort_Permutation, list_elem_of_filter,
      elem_of_map_to_list. tauto.
  - rewrite merge_sort_Permutation. apply NoDup_filter, NoDup_map_to_list.
  - apply StronglySorted_merge_sort; apply _.
Qed.

Lemma ordered_all (t : gmap Z screenshot) :
  let l := Sql.order_by_timestamp_desc (map_to_list t) in
  (∀ i r, (i, r) ∈ l ↔ t !! i = Some r)
  ∧ NoDup l
  ∧ StronglySorted Sql.newer_first l.
Proof.
  intros l. unfold l, Sql.order_by_timestamp_desc. split; [|split].
  - intros i r. rewrite merge_sort_Permutation, elem_of_map_to_list. tauto.
  - rewrite merge_sort_Permutation. apply NoDup_map_to_list.
  - apply StronglySorted_merge_sort; apply _.
Qed.

(** C5, amended.  On a healthy database, for a search term that holds
    neither a wildcard of [LIKE] ([%], [_]) nor a NUL character and makes
    a pattern of at most 50000 bytes, and for a limit and an offset of 64
    bits: the unlimited listing with the term holds exactly the records in
    which the term occurs, up to the case of ASCII letters, in the file
    name, the window name, the tags or the notes (each read up to its
    first NUL character), each once and newest first; a listing with a
    limit and an offset is that page of it, a negative limit being no
    limit and a negative offset none; and it is empty when no record
    matches.  Without a term the same holds of all the records. *)
Theorem get_history_search d limit offset term :
  wildcard_free term →
  "000"%char ∉ term →
  (Sql.utf8_length term + 2 ≤ 50000)%Z →
  (- 2 ^ 63 ≤ limit < 2 ^ 63)%Z →
  (- 2 ^ 63 ≤ offset < 2 ^ 63)%Z →
  let hits := get_history healthy d (-1) 0 (Some term) in
  let everything := get_history healthy d (-1) 0 None in
  let page (rows : list (Z * screenshot)) :=
    let rest := drop (Z.to_nat offset) rows in
    if (limit <? 0)%Z then rest else take (Z.to_nat limit) rest in
  (∀ i r, (i, r) ∈ hits ↔ table d !! i = Some r ∧ occurs_in_record term r)
  ∧ NoDup hits
  ∧ StronglySorted Sql.newer_first hits
  ∧ get_history healthy d limit offset (Some term) = page hits
  ∧ ((∀ i r, table d !! i = Some r → ¬ occurs_in_record term r) →
     get_history healthy d limit offset (Some term) = [])
  ∧ (∀ i r, (i, r) ∈ everything ↔ table d !! i = Some r)
  ∧ NoDup everything
  ∧ StronglySorted Sql.newer_first everything
  ∧ get_history healthy d limit offset None = page everything.
Proof.
  intros Hfree Hnul Hlen Hlimit Hoffset hits everything page.
  assert (Hnone : (Sql.utf8_length (default [] (@None str)) + 2 ≤ 50000)%Z)
    by (vm_compute; discriminate).
  assert (Hhits : (∀ i r, (i, r) ∈ hits ↔
                     table d !! i = Some r ∧ occurs_in_record term r)
                  ∧ NoDup hits ∧ StronglySorted Sql.newer_first hits).
  { unfold hits. rewrite get_history_unlimited by exact Hlen.
    destruct term as [|c term]; cbn [PyStr.truthy default].
    - destruct (ordered_all (table d)) as (Hin & Hnd & Hs).
      split; [|done]. intros i r. rewrite Hin. split; [|tauto].
      intros Hr. split; [done|]. left. exists (filename r).
      split; [reflexivity|]. exists [], [], (Sql.c_str (filename r)). done.
    - destruct (ordered_selection
                  (λ kr, search_match (c :: term) kr.2 = true) (table d))
        as (Hin & Hnd & Hs).
      split; [|done]. intros i r. rewrite Hin. simpl.
      rewrite search_hit_spec by done. tauto. }
  assert (Hall : (∀ i r, (i, r) ∈ everything ↔ table d !! i = Some r)
                 ∧ NoDup everything
                 ∧ StronglySorted Sql.newer_first everything).
  { unfold everything. rewrite get_history_unlimited by exact Hnone.
    apply ordered_all. }
  assert (Hpage : get_history healthy d limit offset (Some term) = page hits).
  { unfold hits. rewrite get_history_unlimited by exact Hlen.
    rewrite get_history_healthy by assumption. reflexivity. }
  destruct Hhits as (Hin & Hnd & Hs). destruct Hall as (Hin' & Hnd' & Hs').
  split; [exact Hin|]. split; [exact Hnd|]. split; [exact Hs|].
  split; [exact Hpage|]. split.
  { intros Hno. rewrite Hpage.
    assert (hits = []) as ->.
    { clear Hpage. destruct hits as [|[i r] rest]; [done|]. exfalso.
      destruct (proj1 (Hin i r)) as [Hr Hocc]; [left|].
      eapply Hno; eassumption. }
    unfold page. rewrite drop_nil.
    destruct (limit <? 0)%Z; [done|apply take_nil]. }
  split; [exact Hin'|]. split; [exact Hnd'|]. split; [exact Hs'|].
  unfold everything. rewrite get_history_unlimited by exact Hnone.
  rewrite get_history_healthy by assumption. reflexivity.
Qed.

(** A witness of [get_history_search]: the term [chro] on the example
    catalog. *)
Lemma get_history_search_witness :
  get_history healthy example_db 10 0 (Some (lit "chro"))
  = take 10 (drop 0 (get_history healthy example_db (-1) 0 (Some (lit "chro")))).
Proof.
  refine (proj1 (proj2 (proj2 (proj2
            (get_history_search example_db 10 0 (lit "chro") _ _ _ _ _))))).
  - repeat constructor; discriminate.
  - vm_compute. intros H.
    repeat (apply elem_of_cons in H as [H|H]; [discriminate|]).
    apply elem_of_nil in H. exact H.
  - vm_compute. discriminate.
  - lia.
  - lia.
Defined.

(** C5 as stated fails: the term [_] occurs in no column of row 1, and
    the search returns row 1, as [_] is a wildcard of [LIKE]. *)
Lemma search_wildcard_counterexample :
  get_history healthy example_db 100 0 (Some (lit "_")) = [(1%Z, example_row)]
  ∧ ¬ occurs_in_record (lit "_") example_row.
Proof.
  split; [vm_compute; reflexivity|].
  intros [H|[H|[H|H]]];
    apply column_contains_ci_spec in H; vm_compute in H; discriminate.
Qed.

(** The other terms that the amended claim leaves out: a NUL ends the
    pattern, so that the term of one NUL finds the row of the example
    catalog, in which no NUL occurs; and a limit of [2 ^ 63] is more than
    [execute] can bind, so that the listing is empty. *)
Example search_beyond_the_claim :
  get_history healthy example_db 100 0 (Some ["000"%char])
  = [(1%Z, example_row)]
  ∧ get_history healthy example_db (2 ^ 63) 0 None = []
  ∧ get_history healthy example_db (2 ^ 63 - 1) 0 None = [(1%Z, example_row)].
Proof.
  split; [vm_compute; reflexivity|]. split; [vm_compute; reflexivity|].
  rewrite get_history_healthy by (lia || (vm_compute; discriminate)).
  apply limit_offset_example. lia.
Qed.

(** ** The region selector *)

Module RegionSelectorFacts.

Import Qt RegionSelector.

Lemma run_app events1 : ∀ s events2,
  run s (events1 ++ events2)
  = let '(s1, out1) := run s events1 in
    let '(s2, out2) := run s1 events2 in
    (s2, out1 ++ out2).
Proof.
  induction events1 as [|e events1 IH]; intros s events2; simpl.
  - destruct (run s events2). reflexivity.
  - destruct (dispatch s e) as [s' out]. rewrite IH.
    destruct (run s' events1) as [s1 out1].
    destruct (run s1 events2) as [s2 out2].
    rewrite app_assoc. reflexivity.
Qed.

(** Pointer moves while an anchor is set change the end point only. *)
Lemma run_moves start moves : ∀ e,
  isNull start = false →
  ∃ e', run {| start_point := Some start; end_point := e; visible := true |}
          (MouseMove <$> moves)
        = ({| start_point := Some start; end_point := e'; visible := true |}, []).
Proof.
  induction moves as [|m moves IH]; intros e Hstart.
  - exists e. reflexivity.
  - rewrite fmap_cons.
    cbn [run dispatch visible]. unfold mouseMoveEvent.
    cbn [start_point truthy]. rewrite Hstart. cbv beta iota zeta.
    cbn [negb visible start_point]. cbv beta iota zeta.
    destruct (IH (Some m) Hstart) as (e' & ->). exists e'. reflexivity.
Qed.

(** C3, amended.  A drag with the left button from an anchor other than
    the origin to a release point, whatever the moves in between, closes
    the selector on release and emits at most one rectangle: Qt's
    normalized rectangle of the two points, if its width and its height are
    both above 5, in which case the selector ends Completed; otherwise
    nothing is emitted and it ends Cancelled.  The rectangle has its
    corners inclusive in the direction of the drag (left at the anchor,
    width the distance plus 1) and exclusive against it (left one past the
    release point, width the distance minus 1). *)
Theorem drag_release (anchor release : QPoint) (moves : list QPoint) :
  isNull anchor = false →
  let rect := normalized (QRect_of anchor release) in
  let big := (5 <? width rect)%Z && (5 <? height rect)%Z in
  ∃ s out,
    run shown (MousePress LeftButton anchor :: (MouseMove <$> moves)
                 ++ [MouseRelease LeftButton release]) = (s, out)
    ∧ visible s = false
    ∧ emitted out
      = (if big then [(x rect, y rect, width rect, height rect)] else [])
    ∧ phase_of s out = (if big then Completed else Cancelled)
    ∧ x rect = (if (px release <? px anchor - 1)%Z
                then px release + 1 else px anchor)%Z
    ∧ y rect = (if (py release <? py anchor - 1)%Z
                then py release + 1 else py anchor)%Z
    ∧ width rect = (if (px release <? px anchor - 1)%Z
                    then px anchor - px release - 1
                    else px release - px anchor + 1)%Z
    ∧ height rect = (if (py release <? py anchor - 1)%Z
                     then py anchor - py release - 1
                     else py release - py anchor + 1)%Z
    ∧ (0 ≤ width rect)%Z ∧ (0 ≤ height rect)%Z.
Proof.
  intros Hanchor rect big.
  change (MousePress LeftButton anchor :: (MouseMove <$> moves)
            ++ [MouseRelease LeftButton release])
    with ([MousePress LeftButton anchor] ++ (MouseMove <$> moves)
            ++ [MouseRelease LeftButton release]).
  rewrite run_app.
  change (run shown [MousePress LeftButton anchor])
    with ({| start_point := Some anchor; end_point := Some anchor;
             visible := true |}, [LogSelectionStarted]).
  cbv beta iota zeta. rewrite run_app.
  destruct (run_moves anchor moves (Some anchor) Hanchor) as (e' & ->).
  cbv beta iota zeta. cbn [run dispatch visible]. unfold mouseReleaseEvent.
  cbn [start_point is_left truthy andb visible]. rewrite Hanchor. cbn [negb].
  fold rect. fold big.
  assert (Hgeom :
    x rect = (if (px release <? px anchor - 1)%Z
              then px release + 1 else px anchor)%Z
    ∧ y rect = (if (py release <? py anchor - 1)%Z
                then py release + 1 else py anchor)%Z
    ∧ width rect = (if (px release <? px anchor - 1)%Z
                    then px anchor - px release - 1
                    else px release - px anchor + 1)%Z
    ∧ height rect = (if (py release <? py anchor - 1)%Z
                     then py anchor - py release - 1
                     else py release - py anchor + 1)%Z
    ∧ (0 ≤ width rect)%Z ∧ (0 ≤ height rect)%Z).
  { unfold rect, normalized, QRect_of, x, y, width, height. simpl.
    destruct (px release <? px anchor - 1)%Z eqn:Hx,
             (py release <? py anchor - 1)%Z eqn:Hy; simpl; lia. }
  destruct big; eexists _, _; (split; [reflexivity|]);
    (split; [reflexivity|]); (split; [reflexivity|]);
    (split; [reflexivity|]); exact Hgeom.
Qed.

(** A witness of [drag_release]: the drag from (50,50) back to (10,10)
    emits the rectangle at (11,11) of size 39 by 39. *)
Lemma drag_release_witness :
  ∃ s out,
    run shown [MousePress LeftButton {| px := 50; py := 50 |};
               MouseMove {| px := 30; py := 20 |};
               MouseRelease LeftButton {| px := 10; py := 10 |}] = (s, out)
    ∧ emitted out = [(11, 11, 39, 39)%Z].
Proof.
  destruct (drag_release {| px := 50; py := 50 |} {| px := 10; py := 10 |}
              [{| px := 30; py := 20 |}] eq_refl)
    as (s & out & Hrun & _ & Hout & _).
  exists s, out. split; [exact Hrun|exact Hout].
Defined.

(** C3 as stated fails: the drag from (50,50) to (10,10) does not yield
    the rectangle at (10,10) of size 40 by 40. *)
Lemma drag_back_counterexample :
  emitted (run shown [MousePress LeftButton {| px := 50; py := 50 |};
                      MouseRelease LeftButton {| px := 10; py := 10 |}]).2
  = [(11, 11, 39, 39)%Z]
  ∧ (11, 11, 39, 39)%Z ≠ (10, 10, 40, 40)%Z.
Proof. split; [reflexivity|discriminate]. Qed.

(** The forward drag between the same points takes in both corners. *)
Example drag_forward :
  emitted (run shown [MousePress LeftButton {| px := 10; py := 10 |};
                      MouseRelease LeftButton {| px := 50; py := 50 |}]).2
  = [(10, 10, 41, 41)%Z].
Proof. reflexivity. Qed.

(** An anchor at the origin of the overlay has the truth value of no
    anchor: the release is ignored and the selector stays open. *)
Example anchor_at_origin :
  run shown [MousePress LeftButton {| px := 0; py := 0 |};
             MouseMove {| px := 300; py := 200 |};
             MouseRelease LeftButton {| px := 300; py := 200 |}]
  = ({| start_point := Some {| px := 0; py := 0 |};
        end_point := Some {| px := 0; py := 0 |}; visible := true |},
     [LogSelectionStarted]).
Proof. reflexivity. Qed.

Lemma emitted_app out1 out2 : emitted (out1 ++ out2) = emitted out1 ++ emitted out2.
Proof. unfold emitted. apply omap_app. Qed.

Lemma consistent_quiet s s' out o :
  consistent s out → (visible s' = true → visible s = true) →
  emitted o = [] → LogRegionSelected ∉ o →
  consistent s' (out ++ o).
Proof.
  intros [Hemit Hopen] Hvis Ho Hlog. split.
  - intros Hn. rewrite not_elem_of_app in Hn. destruct Hn as [Hn _].
    rewrite emitted_app, Ho, (Hemit Hn). reflexivity.
  - intros Hv. rewrite not_elem_of_app. split; [|done]. apply Hopen, Hvis, Hv.
Qed.

Lemma dispatch_consistent s out e :
  consistent s out →
  consistent (dispatch s e).1 (out ++ (dispatch s e).2).
Proof.
  intros Hc. unfold dispatch. destruct (visible s) eqn:Hv.
  2:{ simpl. rewrite app_nil_r. exact Hc. }
  destruct e as [b pos|pos|b pos|k].
  - unfold mousePressEvent. destruct (is_left b); simpl.
    + apply (consistent_quiet s); [done|done|done|].
      rewrite list_elem_of_singleton. discriminate.
    + rewrite app_nil_r. exact Hc.
  - unfold mouseMoveEvent. destruct (truthy (start_point s)); simpl.
    + apply (consistent_quiet s); [done|done|done|]. apply not_elem_of_nil.
    + rewrite app_nil_r. exact Hc.
  - unfold mouseReleaseEvent. destruct (start_point s) as [start|].
    2:{ simpl. rewrite app_nil_r. exact Hc. }
    destruct (is_left b && truthy (Some start)).
    2:{ simpl. rewrite app_nil_r. exact Hc. }
    match goal with |- context [if ?c then _ else _] => destruct c end; simpl.
    + split.
      * intros Hn. exfalso. apply Hn. rewrite elem_of_app. right.
        apply elem_of_cons. left. reflexivity.
      * discriminate.
    + apply (consistent_quiet s); [done|discriminate|done|].
      rewrite list_elem_of_singleton. discriminate.
  - destruct k; simpl.
    + apply (consistent_quiet s); [done|discriminate|done|].
      rewrite list_elem_of_singleton. discriminate.
    + rewrite app_nil_r. exact Hc.
    + rewrite app_nil_r. exact Hc.
Qed.

Lemma run_consistent events : ∀ s out,
  consistent s out →
  consistent (run s events).1 (out ++ (run s events).2).
Proof.
  induction events as [|e events IH]; intros s out Hc; simpl.
  - rewrite app_nil_r. exact Hc.
  - pose proof (dispatch_consistent s out e Hc) as Hd.
    destruct (dispatch s e) as [s' o]. simpl in Hd.
    specialize (IH s' (out ++ o) Hd).
    destruct (run s' events) as [s'' o']. simpl in *.
    rewrite app_assoc. exact IH.
Qed.

(** C8. After any events, a selector that is still open, Idle or
    Dragging, is taken to Cancelled by the Escape key; and a run that ends
    in Cancelled has emitted no rectangle. *)
Theorem escape_cancels (events : list event) :
  let s := (run shown events).1 in
  let out := (run shown events).2 in
  let s' := (run shown (events ++ [KeyPress Key_Escape])).1 in
  let out' := (run shown (events ++ [KeyPress Key_Escape])).2 in
  (phase_of s out = Idle ∨ phase_of s out = Dragging →
   phase_of s' out' = Cancelled ∧ emitted out' = [])
  ∧ (phase_of s out = Cancelled → emitted out = []).
Proof.
  intros s out s' out'.
  assert (Hc : consistent s out).
  { apply (run_consistent events shown []). split; [done|].
    intros _. apply not_elem_of_nil. }
  subst s' out'. rewrite run_app. subst s out.
  destruct (run shown events) as [s0 out0]. cbn [fst snd] in *.
  destruct Hc as [Hemit Hopen]. split.
  - intros Hphase.
    assert (Hv : visible s0 = true).
    { unfold phase_of in Hphase. destruct (visible s0); [done|].
      case_bool_decide; destruct Hphase; discriminate. }
    cbv beta iota zeta. cbn [run]. unfold dispatch. rewrite Hv.
    cbn [keyPressEvent]. cbv beta iota zeta. cbn [fst snd].
    assert (Hn : LogRegionSelected ∉ out0 ++ [LogCancelledByUser] ++ []).
    { rewrite !not_elem_of_app. split; [auto|]. split; [|apply not_elem_of_nil].
      rewrite list_elem_of_singleton. discriminate. }
    unfold phase_of. cbn [close visible].
    rewrite (bool_decide_eq_false_2 _ Hn). split; [done|].
    rewrite !emitted_app, (Hemit (Hopen Hv)). reflexivity.
  - intros Hphase. apply Hemit. unfold phase_of in Hphase.
    destruct (visible s0); [destruct (start_point s0); discriminate|].
    case_bool_decide; [discriminate|done].
Qed.

Example escape_while_dragging :
  run shown [MousePress LeftButton {| px := 5; py := 5 |};
             MouseMove {| px := 90; py := 90 |}; KeyPress Key_Escape;
             MouseRelease LeftButton {| px := 90; py := 90 |}]
  = ({| start_point := Some {| px := 5; py := 5 |};
        end_point := Some {| px := 90; py := 90 |}; visible := false |},
     [LogSelectionStarted; LogCancelledByUser]).
Proof. reflexivity. Qed.

End RegionSelectorFacts.

(** * Further properties of the storage manager *)

(** ** Row ids *)

Lemma next_rowid_above d :
  (sqlite_sequence d < Sql.next_rowid d)%Z
  ∧ ∀ i r, table d !! i = Some r → (i < Sql.next_rowid d)%Z.
Proof.
  unfold Sql.next_rowid.
  assert (H : (sqlite_sequence d
               ≤ map_fold (λ k _ acc, Z.max k acc) (sqlite_sequence d) (table d))%Z
              ∧ ∀ i r, table d !! i = Some r →
                  (i ≤ map_fold (λ k _ acc, Z.max k acc) (sqlite_sequence d)
                         (table d))%Z).
  { apply (map_fold_weak_ind
             (λ b (m : gmap Z screenshot),
                (sqlite_sequence d ≤ b)%Z
                ∧ ∀ i r, m !! i = Some r → (i ≤ b)%Z)).
    - split; [lia|]. intros i r Hi. rewrite lookup_empty in Hi. discriminate.
    - intros i x m b Hnone [Hb Hm]. split; [lia|].
      intros j r Hj. destruct (decide (j = i)) as [->|Hne]; [lia|].
      rewrite lookup_insert_ne in Hj by done.
      specialize (Hm j r Hj). lia. }
  destruct H as [H1 H2]. split; [lia|].
  intros i r Hi. specialize (H2 i r Hi). lia.
Qed.

Lemma next_rowid_fresh d : table d !! Sql.next_rowid d = None.
Proof.
  destruct (table d !! Sql.next_rowid d) as [r|] eqn:E; [|done].
  apply next_rowid_above in E. lia.
Qed.

(** The two outcomes of [_add_to_history]: nothing, or the new row under
    the next row id. *)
Lemma add_to_history_cases env now d filename filepath' window_name
    capture_mode width height file_size :
  let d' := _add_to_history env now d filename filepath' window_name
              capture_mode width height file_size in
  d' = d
  ∨ (Sql.filepath_taken filepath' (table d) = false
     ∧ d' = {| table := <[Sql.next_rowid d :=
                           inserted_row now filename filepath' window_name
                             capture_mode width height file_size]> (table d);
               sqlite_sequence := Sql.next_rowid d |}).
Proof.
  unfold _add_to_history, Sql.insert, call. simpl.
  destruct (env Connect); [left; reflexivity|]. simpl.
  destruct (env Execute); [left; reflexivity|]. simpl.
  destruct (Sql.filepath_taken filepath' (table d)) eqn:Ht;
    [left; reflexivity|]. simpl.
  destruct (env Commit); [left; reflexivity|]. simpl.
  right. split; reflexivity.
Qed.

Lemma add_to_history_healthy now d filename filepath' window_name
    capture_mode width height file_size :
  _add_to_history healthy now d filename filepath' window_name
    capture_mode width height file_size
  = if Sql.filepath_taken filepath' (table d) then d
    else {| table := <[Sql.next_rowid d :=
                         inserted_row now filename filepath' window_name
                           capture_mode width height file_size]> (table d);
            sqlite_sequence := Sql.next_rowid d |}.
Proof.
  unfold _add_to_history, Sql.insert, call. simpl.
  destruct (Sql.filepath_taken filepath' (table d)); reflexivity.
Qed.

Lemma filepath_taken_false p (t : gmap Z screenshot) :
  Sql.filepath_taken p t = false ↔ ¬ ∃ i r, t !! i = Some r ∧ filepath r = p.
Proof.
  rewrite <- filepath_taken_true.
  destruct (Sql.filepath_taken p t); split; intros H; done.
Qed.

(** X1. An insert and the listing: on a database whose calls succeed,
    after [_add_to_history] with a path that no row holds, the unlimited
    listing holds the new record (the given fields, the catalog's time, no
    tags or notes) under an id that was not in use, next to exactly the
    records listed before. *)
Theorem add_to_history_listed now d filename filepath' window_name
    capture_mode width height file_size :
  (¬ ∃ i r, table d !! i = Some r ∧ filepath r = filepath') →
  let d' := _add_to_history healthy now d filename filepath' window_name
              capture_mode width height file_size in
  let id := Sql.next_rowid d in
  let row := inserted_row now filename filepath' window_name capture_mode
               width height file_size in
  table d !! id = None
  ∧ ∀ j r, (j, r) ∈ get_history healthy d' (-1) 0 None
           ↔ (j, r) = (id, row) ∨ (j, r) ∈ get_history healthy d (-1) 0 None.
Proof.
  intros Hfree d' id row. apply filepath_taken_false in Hfree.
  split; [apply next_rowid_fresh|].
  intros j r. unfold d'. rewrite add_to_history_healthy, Hfree.
  rewrite !get_history_unlimited by (vm_compute; discriminate).
  cbn [PyStr.truthy].
  rewrite (proj1 (ordered_all _)), (proj1 (ordered_all (table d))).
  cbn [table]. fold id row.
  destruct (decide (j = id)) as [->|Hne].
  - rewrite lookup_insert_eq. split.
    + intros [= <-]. left. reflexivity.
    + intros [[= <-]|Hold]; [reflexivity|].
      unfold id in Hold. rewrite (next_rowid_fresh d) in Hold. discriminate.
  - rewrite lookup_insert_ne by done. split; [auto|].
    intros [[= ? ?]|?]; [contradiction|done].
Qed.

(** A witness of [add_to_history_listed]: a second path into the example
    catalog. *)
Lemma add_to_history_listed_witness :
  table example_db !! Sql.next_rowid example_db = None.
Proof.
  refine (proj1 (add_to_history_listed 2000 example_db (lit "b.png")
                   [lit "shots"; lit "b.png"] None (lit "region") 5 5 77 _)).
  intros (i & r & Hi & Hp).
  destruct (decide (i = 1%Z)) as [->|Hne].
  - injection Hi as <-. discriminate.
  - unfold example_db in Hi. cbn [table] in Hi.
    rewrite lookup_singleton_ne in Hi by done. discriminate.
Defined.

(** ** What each operation can do to the world *)

Lemma delete_screenshot_cases env w i :
  delete_screenshot env w i = (false, w)
  ∨ ∃ row, table (db w) !! i = Some row
      ∧ (delete_screenshot env w i
           = (false, {| files := files w ∖ {[filepath row]}; db := db w |})
         ∨ delete_screenshot env w i
           = (true, {| files := files w ∖ {[filepath row]};
                       db := Sql.delete_id i (db w) |})).
Proof.
  unfold delete_screenshot, call.
  destruct (env Connect); [left; reflexivity|]. simpl.
  destruct (env Execute); [left; reflexivity|]. simpl.
  destruct (env Fetch); [left; reflexivity|]. simpl.
  destruct (table (db w) !! i) as [row|]; [|left; reflexivity].
  right. exists row. split; [reflexivity|].
  assert (Hfiles : (if Fs.exists_ (files w) (filepath row)
                    then Fs.unlink (files w) (filepath row)
                    else Ok (files w))
                   = Ok (files w ∖ {[filepath row]})).
  { unfold Fs.exists_, Fs.unlink. case_bool_decide as Hin; simpl.
    - reflexivity.
    - f_equal. set_solver. }
  rewrite Hfiles. simpl.
  destruct (env Commit); [left|right]; reflexivity.
Qed.

Lemma cleanup_fold_sequence (items : list (Z * Path)) : ∀ fs d n fs' d' n',
  foldl cleanup_step (Ok (fs, d, n)) items = Ok (fs', d', n') →
  sqlite_sequence d' = sqlite_sequence d.
Proof.
  induction items as [|[i p] items IH]; intros fs d n fs' d' n'; simpl.
  - intros [= _ <- _]. reflexivity.
  - unfold Fs.exists_, Fs.unlink. case_bool_decide; simpl; intros Hrun;
      apply IH in Hrun; exact Hrun.
Qed.

Lemma cleanup_cases env cfg now w :
  cleanup_old_screenshots env cfg now w = (w, None)
  ∨ ∃ cutoff d' n,
      let items := old_screenshots_of cutoff (table (db w)) in
      cutoff_date now (days_to_keep cfg) = Ok cutoff
      ∧ table d' = foldl (λ t i, delete i t) (table (db w)) items.*1
      ∧ sqlite_sequence d' = sqlite_sequence (db w)
      ∧ size (files w) = size (files w ∖ list_to_set items.*2) + n
      ∧ auto_delete_enabled cfg = true
      ∧ (cleanup_old_screenshots env cfg now w
           = ({| files := files w ∖ list_to_set items.*2; db := db w |}, None)
         ∧ env Commit = true
         ∨ cleanup_old_screenshots env cfg now w
           = ({| files := files w ∖ list_to_set items.*2; db := d' |}, Some n)
           ∧ env Commit = false).
Proof.
  unfold cleanup_old_screenshots, call.
  destruct (auto_delete_enabled cfg); [|left; reflexivity]. simpl.
  destruct (cutoff_date now (days_to_keep cfg)) as [cutoff|];
    [|left; reflexivity].
  destruct (env Connect); [left; reflexivity|]. simpl.
  destruct (env Execute); [left; reflexivity|]. simpl.
  destruct (env Fetch); [left; reflexivity|]. simpl.
  change (_ <$> filter _ (map_to_list (table (db w))))
    with (old_screenshots_of cutoff (table (db w))).
  destruct (cleanup_fold (old_screenshots_of cutoff (table (db w)))
              (files w) (db w) 0)
    as (fs' & d' & n' & Hrun & Hfs & Ht & Hsz & _).
  rewrite Hrun. right. exists cutoff, d', n'. subst fs'. cbv zeta.
  split; [reflexivity|].
  split; [exact Ht|].
  split; [exact (cleanup_fold_sequence _ _ _ _ _ _ _ Hrun)|].
  split; [lia|]. split; [reflexivity|].
  destruct (env Commit); [left|right]; split; reflexivity.
Qed.

Lemma foldl_delete_subseteq (ks : list Z) : ∀ t : gmap Z screenshot,
  foldl (λ t i, delete i t) t ks ⊆ t.
Proof.
  induction ks as [|k ks IH]; intros t; simpl; [done|].
  etrans; [apply IH|]. apply delete_subseteq.
Qed.

Section SaveEffects.

Variable strftime : str → str.
Variable isalnum : ascii → bool.
Variable isspace : ascii → bool.

Lemma save_screenshot_inv env cfg fuel now image window_name mode w p w' :
  save_screenshot strftime isalnum isspace env cfg fuel now image
    window_name mode w = Some (p, w') →
  resolution (files w)
    (get_save_path strftime cfg
       (generate_filename strftime isalnum isspace cfg window_name)) p
  ∧ w' = {| files := files w ∪ {[p]};
            db := _add_to_history env now (db w) (Pathlib.name p) p
                    window_name mode (image_width image)
                    (image_height image) (encoded_size image) |}.
Proof.
  unfold save_screenshot.
  set (cand := get_save_path strftime cfg
                 (generate_filename strftime isalnum isspace cfg window_name)).
  destruct (resolve fuel (files w) cand cand 1) as [q|] eqn:Hres; [|discriminate].
  intros [= -> <-]. split; [|reflexivity].
  destruct (resolve_spec (files w) cand (size (files w) + 2)) as (r & Hr & Hspec);
    [lia|].
  rewrite (resolve_fuel_irrelevant _ _ _ _ _ _ _ _ Hres Hr). exact Hspec.
Qed.

End SaveEffects.

(** ** Invariants kept by every operation *)

Lemma unique_paths_subseteq (t t' : gmap Z screenshot) :
  t' ⊆ t → unique_paths t → unique_paths t'.
Proof.
  intros Hsub Hu i j r r' Hi Hj Hp.
  apply (Hu i j r r'); [|  |exact Hp];
    eapply lookup_weaken; eassumption.
Qed.

Lemma unique_paths_insert (t : gmap Z screenshot) k row :
  unique_paths t → Sql.filepath_taken (filepath row) t = false →
  unique_paths (<[k := row]> t).
Proof.
  intros Hu Hfree i j r r' Hi Hj Hp.
  apply filepath_taken_false in Hfree.
  destruct (decide (i = k)) as [->|Hik], (decide (j = k)) as [->|Hjk];
    [done| | |].
  - rewrite lookup_insert_eq in Hi. injection Hi as <-.
    rewrite lookup_insert_ne in Hj by done.
    exfalso. apply Hfree. exists j, r'. done.
  - rewrite lookup_insert_eq in Hj. injection Hj as <-.
    rewrite lookup_insert_ne in Hi by done.
    exfalso. apply Hfree. exists i, r. done.
  - rewrite lookup_insert_ne in Hi, Hj by done. eapply Hu; eassumption.
Qed.

Lemma add_to_history_unique env now d filename filepath' window_name
    capture_mode width height file_size :
  unique_paths (table d) →
  unique_paths (table (_add_to_history env now d filename filepath'
                         window_name capture_mode width height file_size)).
Proof.
  intros Hu.
  destruct (add_to_history_cases env now d filename filepath' window_name
              capture_mode width height file_size) as [->|[Hfree ->]];
    [done|].
  cbn [table]. apply unique_paths_insert; done.
Qed.

Lemma example_db_unique : unique_paths (table example_db).
Proof.
  intros i j r r' Hi Hj _. unfold example_db in *. cbn [table] in *.
  apply lookup_singleton_Some in Hi as [<- _].
  apply lookup_singleton_Some in Hj as [<- _]. reflexivity.
Qed.

Lemma example_db_bounded : ids_bounded example_db.
Proof.
  intros i r Hi. unfold example_db in *. cbn [table sqlite_sequence] in *.
  apply lookup_singleton_Some in Hi as [<- _]. lia.
Qed.

Section Invariants.

Variable strftime : str → str.
Variable isalnum : ascii → bool.
Variable isspace : ascii → bool.

(** X2. No operation of the storage manager, whatever fails in the
    database on its way, makes two records hold the same path: if the
    paths of the catalog are pairwise distinct before a save, a delete or
    a sweep, they are so after it. *)
Theorem unique_paths_kept (w : world) :
  unique_paths (table (db w)) →
  (∀ env cfg fuel now image window_name mode p w',
     save_screenshot strftime isalnum isspace env cfg fuel now image
       window_name mode w = Some (p, w') →
     unique_paths (table (db w')))
  ∧ (∀ env screenshot_id,
       unique_paths (table (db (delete_screenshot env w screenshot_id).2)))
  ∧ (∀ env cfg now,
       unique_paths (table (db (cleanup_old_screenshots env cfg now w).1))).
Proof.
  intros Hu. split; [|split].
  - intros env cfg fuel now image window_name mode p w' Hsave.
    apply save_screenshot_inv in Hsave as [_ ->]. cbn [db].
    apply add_to_history_unique. exact Hu.
  - intros env i.
    destruct (delete_screenshot_cases env w i) as [->|(row & _ & [->| ->])];
      cbn [snd db]; [exact Hu|exact Hu|].
    eapply unique_paths_subseteq; [|exact Hu]. apply delete_subseteq.
  - intros env cfg now.
    destruct (cleanup_cases env cfg now w)
      as [->|(cutoff & d' & n & _ & Ht & _ & _ & _ & [[-> _]|[-> _]])];
      cbn [fst db]; [exact Hu|exact Hu|].
    rewrite Ht. eapply unique_paths_subseteq; [|exact Hu].
    apply foldl_delete_subseteq.
Qed.

(** X3. Row ids are never reused.  When [sqlite_sequence] bounds the ids
    in use, it still does after a save, a delete or a sweep, whatever
    fails; it never decreases; and a row that a save adds gets an id above
    the old [sqlite_sequence], so above every id handed out before, also
    the ids of rows deleted since. *)
Theorem rowids_never_reused (w : world) :
  ids_bounded (db w) →
  (∀ env cfg fuel now image window_name mode p w',
     save_screenshot strftime isalnum isspace env cfg fuel now image
       window_name mode w = Some (p, w') →
     ids_bounded (db w')
     ∧ (sqlite_sequence (db w) ≤ sqlite_sequence (db w'))%Z
     ∧ ∀ j r, table (db w') !! j = Some r →
         table (db w) !! j = Some r ∨ (sqlite_sequence (db w) < j)%Z)
  ∧ (∀ env screenshot_id,
       ids_bounded (db (delete_screenshot env w screenshot_id).2)
       ∧ sqlite_sequence (db (delete_screenshot env w screenshot_id).2)
         = sqlite_sequence (db w))
  ∧ (∀ env cfg now,
       ids_bounded (db (cleanup_old_screenshots env cfg now w).1)
       ∧ sqlite_sequence (db (cleanup_old_screenshots env cfg now w).1)
         = sqlite_sequence (db w)).
Proof.
  intros Hb. split; [|split].
  - intros env cfg fuel now image window_name mode p w' Hsave.
    apply save_screenshot_inv in Hsave as [_ ->]. cbn [db].
    destruct (add_to_history_cases env now (db w) (Pathlib.name p) p
                window_name mode (image_width image) (image_height image)
                (encoded_size image)) as [->|[_ ->]].
    + split; [exact Hb|]. split; [lia|]. auto.
    + pose proof (next_rowid_above (db w)) as [Hseq Hkeys].
      cbn [table sqlite_sequence]. split; [|split; [lia|]].
      * intros j r Hj. cbn [table sqlite_sequence] in *.
        destruct (decide (j = Sql.next_rowid (db w))) as [->|Hne]; [lia|].
        rewrite lookup_insert_ne in Hj by done.
        specialize (Hkeys j r Hj). lia.
      * intros j r Hj.
        destruct (decide (j = Sql.next_rowid (db w))) as [->|Hne];
          [right; lia|].
        rewrite lookup_insert_ne in Hj by done. left. exact Hj.
  - intros env i.
    destruct (delete_screenshot_cases env w i) as [->|(row & _ & [->| ->])];
      cbn [snd db]; [done|done|].
    split; [|reflexivity]. intros j r Hj. cbn [Sql.delete_id table] in Hj.
    apply lookup_delete_Some in Hj as [_ Hj]. exact (Hb j r Hj).
  - intros env cfg now.
    destruct (cleanup_cases env cfg now w)
      as [->|(cutoff & d' & n & _ & Ht & Hseq & _ & _ & [[-> _]|[-> _]])];
      cbn [fst db]; [done|done|].
    split; [|exact Hseq]. intros j r Hj. rewrite Ht in Hj. rewrite Hseq.
    apply (Hb j r). eapply lookup_weaken; [exact Hj|].
    apply foldl_delete_subseteq.
Qed.

(** X4. What a save leaves behind.  The returned path was free and is
    the one file added.  Trouble in the database changes neither the
    path nor the file: with any other environment the same call returns
    the same path and writes the same file.  The catalog is left as it was
    or gains one row for the path, with the name of the file, the window
    name, the mode and the sizes of the image; and on a database whose
    calls succeed it holds a row for the path afterwards, an earlier one
    if the path was on record already. *)
Theorem save_screenshot_effect env cfg fuel now image window_name mode w p w' :
  save_screenshot strftime isalnum isspace env cfg fuel now image
    window_name mode w = Some (p, w') →
  (p ∉ files w)
  ∧ files w' = files w ∪ {[p]}
  ∧ (∀ env2, ∃ w2,
       save_screenshot strftime isalnum isspace env2 cfg fuel now image
         window_name mode w = Some (p, w2)
       ∧ files w2 = files w'
       ∧ (env2 = healthy → ∃ i r, table (db w2) !! i = Some r ∧ filepath r = p))
  ∧ (db w' = db w
     ∨ (¬ (∃ i r, table (db w) !! i = Some r ∧ filepath r = p))
       ∧ table (db w')
         = <[Sql.next_rowid (db w) :=
               inserted_row now (Pathlib.name p) p window_name mode
                 (image_width image) (image_height image)
                 (encoded_size image)]> (table (db w))).
Proof.
  intros Hsave. pose proof Hsave as Hinv.
  apply save_screenshot_inv in Hinv as [Hres ->]. cbn [files db].
  split; [apply Hres|]. split; [reflexivity|]. split.
  - intros env2. unfold save_screenshot in *.
    destruct (resolve fuel (files w) _ _ 1) as [q|]; [|discriminate].
    injection Hsave as -> _.
    eexists. split; [reflexivity|]. cbn [files db]. split; [reflexivity|].
    intros ->. rewrite add_to_history_healthy.
    destruct (Sql.filepath_taken p (table (db w))) eqn:Ht.
    + apply filepath_taken_true in Ht. exact Ht.
    + cbn [table]. exists (Sql.next_rowid (db w)). eexists.
      rewrite lookup_insert_eq. split; reflexivity.
  - destruct (add_to_history_cases env now (db w) (Pathlib.name p) p
                window_name mode (image_width image) (image_height image)
                (encoded_size image)) as [->|[Hfree ->]]; [left; done|].
    right. split; [apply filepath_taken_false; exact Hfree|reflexivity].
Qed.

End Invariants.

(** A witness of [unique_paths_kept]: deleting the row of the example
    world. *)
Lemma unique_paths_kept_witness :
  unique_paths (table (db (delete_screenshot healthy example_world 1).2))
  ∧ unique_paths (table (db example_world)).
Proof.
  split; [|exact example_db_unique].
  exact (proj1 (proj2 (unique_paths_kept (λ p, p) PyStr.ascii_isalnum
                         PyStr.ascii_isspace example_world
                         example_db_unique)) healthy 1%Z).
Defined.

(** A witness of [rowids_never_reused]: the same delete. *)
Lemma rowids_never_reused_witness :
  ids_bounded (db (delete_screenshot healthy example_world 1).2)
  ∧ sqlite_sequence (db (delete_screenshot healthy example_world 1).2) = 1%Z.
Proof.
  exact (proj1 (proj2 (rowids_never_reused (λ p, p) PyStr.ascii_isalnum
                         PyStr.ascii_isspace example_world
                         example_db_bounded)) healthy 1%Z).
Defined.

(** A witness of [save_screenshot_effect]: a save into the example world
    while the database cannot be opened. *)
Lemma save_screenshot_effect_witness :
  ∃ p w2,
    save_screenshot (λ p, p) PyStr.ascii_isalnum PyStr.ascii_isspace healthy
      example_config 5 0 example_image (Some (lit "Chrome"))
      (lit "fullscreen") example_world = Some (p, w2)
    ∧ ∃ i r, table (db w2) !! i = Some r ∧ filepath r = p.
Proof.
  destruct (save_screenshot_effect (λ p, p) PyStr.ascii_isalnum
              PyStr.ascii_isspace (λ _, true) example_config 5 0
              example_image (Some (lit "Chrome")) (lit "fullscreen")
              example_world
              [lit "shots"; lit "20240101_120000_Chrome.png"]
              {| files := {[ [lit "shots"; lit "a.png"] ]}
                          ∪ {[ [lit "shots"; lit "20240101_120000_Chrome.png"] ]};
                 db := example_db |})
    as (_ & _ & Hany & _).
  { vm_compute. reflexivity. }
  destruct (Hany healthy) as (w2 & Hsave & _ & Hrow).
  eexists _, w2. split; [exact Hsave|]. apply Hrow. reflexivity.
Defined.

(** ** Deleting, whatever fails *)

(** X5. [delete_screenshot] in any environment: it returns true only when
    the id was in the catalog, and then the row is gone (no other row is)
    and the file is absent; when it returns false the catalog is as it
    was; it never adds a file, and never touches one when the database
    cannot be read. *)
Theorem delete_screenshot_any_env env w screenshot_id :
  let answer := (delete_screenshot env w screenshot_id).1 in
  let w' := (delete_screenshot env w screenshot_id).2 in
  (answer = true →
   ∃ row, table (db w) !! screenshot_id = Some row
          ∧ table (db w') = delete screenshot_id (table (db w))
          ∧ files w' = files w ∖ {[filepath row]})
  ∧ (answer = false → db w' = db w)
  ∧ files w' ⊆ files w
  ∧ (env Connect = true ∨ env Execute = true ∨ env Fetch = true → w' = w).
Proof.
  intros answer w'. subst answer w'.
  split; [|split; [|split]].
  - destruct (delete_screenshot_cases env w screenshot_id)
      as [->|(row & Hrow & [->| ->])]; cbn [fst snd files db];
      [discriminate|discriminate|].
    intros _. exists row. done.
  - destruct (delete_screenshot_cases env w screenshot_id)
      as [->|(row & Hrow & [->| ->])]; cbn [fst snd files db];
      [done|done|discriminate].
  - destruct (delete_screenshot_cases env w screenshot_id)
      as [->|(row & Hrow & [->| ->])]; cbn [fst snd files db]; set_solver.
  - intros Hfail. unfold delete_screenshot, call.
    destruct (env Connect); [reflexivity|]. simpl.
    destruct (env Execute); [reflexivity|]. simpl.
    destruct (env Fetch); [reflexivity|].
    destruct Hfail as [?|[?|?]]; discriminate.
Qed.

(** X6. The file and the row do not go together when the commit fails:
    if the database can be read and the final commit raises, a delete of a
    recorded id answers false, the row stays in the catalog, and its file
    is gone from the disk. *)
Theorem delete_commit_failure env w screenshot_id row :
  env Connect = false → env Execute = false → env Fetch = false →
  env Commit = true →
  table (db w) !! screenshot_id = Some row →
  delete_screenshot env w screenshot_id
  = (false, {| files := files w ∖ {[filepath row]}; db := db w |}).
Proof.
  intros Hc He Hf Hm Hrow. unfold delete_screenshot, call.
  rewrite Hc, He, Hf, Hm. simpl. rewrite Hrow.
  unfold Fs.exists_, Fs.unlink. case_bool_decide as Hin; simpl.
  - reflexivity.
  - do 2 f_equal. set_solver.
Qed.

(** A witness of [delete_commit_failure]: the row of the example world. *)
Lemma delete_commit_failure_witness :
  delete_screenshot commit_fails example_world 1
  = (false, {| files := files example_world ∖ {[filepath example_row]};
               db := db example_world |}).
Proof.
  apply (delete_commit_failure commit_fails example_world 1 example_row);
    reflexivity.
Defined.

(** ** The sweep, again and interrupted *)




(** X8. An interrupted sweep: when auto-delete is on, the cutoff ([now],
    the local time, minus [days_to_keep] days) is a date Python can
    represent, the database can be read and the final commit raises, the
    files of the records that the sweep selected (those with a timestamp
    that reads strictly before the cutoff) are gone from the disk while
    every record, selected ones included, stays in the catalog, and no
    count is logged. *)
Theorem cleanup_commit_failure env cfg now w :
  auto_delete_enabled cfg = true →
  env Connect = false → env Execute = false → env Fetch = false →
  env Commit = true →
  (-999999999 ≤ days_to_keep cfg ≤ 999999999)%Z →
  let cutoff := (now - days_to_keep cfg * Datetime.day)%Z in
  (0 ≤ cutoff ≤ Datetime.max)%Z →
  ∃ w', cleanup_old_screenshots env cfg now w = (w', None)
        ∧ db w' = db w
        ∧ ∀ p, p ∈ files w' ↔
               p ∈ files w
               ∧ ¬ ∃ i r, table (db w) !! i = Some r
                          ∧ (timestamp r * 1000000 < cutoff)%Z
                          ∧ filepath r = p.
Proof.
  intros Hon Hc He Hf Hm Hdays cutoff Hcut.
  unfold cleanup_old_screenshots, call. rewrite Hon.
  rewrite (cutoff_date_ok now (days_to_keep cfg) Hdays Hcut).
  rewrite Hc, He, Hf, Hm. simpl. fold cutoff.
  change (_ <$> filter _ (map_to_list (table (db w))))
    with (old_screenshots_of cutoff (table (db w))).
  destruct (cleanup_fold (old_screenshots_of cutoff (table (db w)))
              (files w) (db w) 0) as (fs' & d' & n' & Hrun & Hfs & _).
  rewrite Hrun. eexists. split; [reflexivity|]. cbn [files db].
  split; [reflexivity|].
  intros p. rewrite Hfs, elem_of_difference, elem_of_list_to_set.
  unfold old_screenshots_of. rewrite <- list_fmap_compose, list_elem_of_fmap.
  split.
  - intros [Hp Hn]. split; [done|]. intros (i & r & Hk & Hts & Heq).
    apply Hn. exists (i, r). split; [done|].
    apply list_elem_of_filter. split; [exact Hts|]. apply elem_of_map_to_list. done.
  - intros [Hp Hn]. split; [done|]. intros ([i r] & Heq & Hin).
    apply list_elem_of_filter in Hin as [Hts Hin].
    apply elem_of_map_to_list in Hin. apply Hn. exists i, r. done.
Qed.

(** A witness of [cleanup_commit_failure]: the example world a month on. *)
Lemma cleanup_commit_failure_witness :
  ∃ w', cleanup_old_screenshots commit_fails example_config a_month_later
          example_world = (w', None)
        ∧ db w' = db example_world
        ∧ [lit "shots"; lit "a.png"] ∉ files w'.
Proof.
  destruct (cleanup_commit_failure commit_fails example_config a_month_later
              example_world eq_refl eq_refl eq_refl eq_refl eq_refl)
    as (w' & Hrun & Hdb & Hfiles).
  - vm_compute. split; discriminate.
  - vm_compute. split; discriminate.
  - exists w'. split; [exact Hrun|]. split; [exact Hdb|].
    intros Hin. apply Hfiles in Hin as [_ Hn]. apply Hn.
    exists 1%Z, example_row. split; [reflexivity|].
    split; [vm_compute; reflexivity|reflexivity].
Defined.

Example interrupted_sweep :
  cleanup_old_screenshots commit_fails example_config a_month_later
    example_world
  = ({| files := ∅; db := example_db |}, None).
Proof. vm_compute. reflexivity. Qed.

(** The same sweep at two clocks, keeping thirty days: thirty days and
    six hours after the row was written a clock on UTC sweeps it, and a
    clock eight hours behind UTC leaves it. *)
Example sweep_by_the_local_clock :
  let utc := (738885 * 86400 + 12 * 3600 + 30 * 86400 + 6 * 3600)%Z in
  (cleanup_old_screenshots healthy example_config (Datetime.now utc 0 0)
     new_year_world).2 = Some 1
  ∧ cleanup_old_screenshots healthy example_config
      (Datetime.now utc (-8 * 3600) 0) new_year_world
    = (new_year_world, Some 0).
Proof. split; vm_compute; reflexivity. Qed.

(** ** Listing: pages, and terms with wildcards *)

Lemma StronglySorted_sublist {A} (R : relation A) (l1 l2 : list A) :
  l1 `sublist_of` l2 → StronglySorted R l2 → StronglySorted R l1.
Proof.
  induction 1 as [|x l1 l2 Hsub IH|x l1 l2 Hsub IH]; intros Hs.
  - constructor.
  - apply StronglySorted_inv in Hs as [Hs Hx]. constructor; [auto|].
    rewrite Forall_forall in Hx |- *. intros y Hy. apply Hx.
    apply (sublist_subseteq _ _ Hsub). exact Hy.
  - apply StronglySorted_inv in Hs as [Hs _]. auto.
Qed.

Lemma limit_offset_sublist {A} limit offset (rows : list A) :
  Sql.limit_offset limit offset rows `sublist_of` rows.
Proof.
  unfold Sql.limit_offset. destruct (limit <? 0)%Z.
  - apply sublist_drop.
  - etrans; [apply sublist_take|apply sublist_drop].
Qed.

Lemma limit_offset_length {A} limit offset (rows : list A) :
  (0 ≤ limit)%Z → length (Sql.limit_offset limit offset rows) ≤ Z.to_nat limit.
Proof.
  intros Hl. unfold Sql.limit_offset.
  destruct (limit <? 0)%Z eqn:E; [lia|]. rewrite length_take. lia.
Qed.

(** The rows a listing selects before it orders and cuts them. *)
Lemma get_history_cases env d limit offset search_term :
  get_history env d limit offset search_term = []
  ∨ ∃ selected,
      selected `sublist_of` map_to_list (table d)
      ∧ get_history env d limit offset search_term
        = Sql.limit_offset limit offset (Sql.order_by_timestamp_desc selected).
Proof.
  unfold get_history, get_history_body, call.
  destruct (env Connect); [left; reflexivity|]. simpl.
  destruct (env Execute); [left; reflexivity|]. simpl.
  destruct (bind_int_cases limit) as [-> | ->]; [|left; reflexivity]. simpl.
  destruct (bind_int_cases offset) as [-> | ->]; [|left; reflexivity]. simpl.
  destruct (if PyStr.truthy search_term then _ else _) as [selected|] eqn:Hsel;
    [|left; reflexivity]. simpl.
  destruct (env Fetch); [left; reflexivity|]. simpl.
  right. exists selected. split; [|reflexivity].
  destruct (PyStr.truthy search_term).
  - eapply where_sublist. exact Hsel.
  - injection Hsel as <-. reflexivity.
Qed.

(** X9. A listing never makes records up.  Whatever the environment, the
    term, the limit and the offset, every record that [get_history]
    returns is a row of the catalog under its id, no record comes twice,
    each is at least as new as those after it, and there are no more of
    them than a non-negative limit allows. *)
Theorem get_history_sound env d limit offset search_term :
  let history := get_history env d limit offset search_term in
  (∀ i r, (i, r) ∈ history → table d !! i = Some r)
  ∧ NoDup history
  ∧ StronglySorted Sql.newer_first history
  ∧ ((0 ≤ limit)%Z → length history ≤ Z.to_nat limit)
  ∧ length history ≤ size (table d).
Proof.
  intros history. subst history.
  destruct (get_history_cases env d limit offset search_term)
    as [->|(selected & Hsel & ->)].
  { split; [|split; [|split; [|split]]]; simpl;
      [|constructor|constructor|lia|lia].
    intros i r Hin. apply elem_of_nil in Hin. done. }
  assert (Hperm : Sql.order_by_timestamp_desc selected ≡ₚ selected)
    by apply merge_sort_Permutation.
  assert (Hnd : NoDup (Sql.order_by_timestamp_desc selected)).
  { rewrite Hperm. eapply sublist_NoDup; [apply NoDup_map_to_list|exact Hsel]. }
  split; [|split; [|split; [|split]]].
  - intros i r Hin. apply elem_of_map_to_list.
    apply (sublist_subseteq _ _ Hsel). rewrite <- Hperm.
    apply (sublist_subseteq _ _ (limit_offset_sublist limit offset _)).
    exact Hin.
  - eapply sublist_NoDup; [exact Hnd|apply limit_offset_sublist].
  - eapply StronglySorted_sublist; [apply limit_offset_sublist|].
    apply StronglySorted_merge_sort; apply _.
  - apply limit_offset_length.
  - rewrite <- length_map_to_list.
    etrans; [apply sublist_length, limit_offset_sublist|].
    rewrite Hperm. apply sublist_length. exact Hsel.
Qed.

Lemma like_underscore p s :
  Sql.like ("_"%char :: p) s
  = match s with
    | [] => false
    | _ :: s' => Sql.like p s'
    end.
Proof. destruct s; reflexivity. Qed.

Lemma lower_percent d : Sql.lower "%"%char = Sql.lower d → d = "%"%char.
Proof.
  destruct d as [[] [] [] [] [] [] [] []]; vm_compute; congruence.
Qed.

(** A term followed by [%], wildcards in the term or not, matches every
    string that starts with the term itself. *)
Lemma like_literal_prefix term : ∀ s,
  prefix_ci term s = true → Sql.like (term ++ lit "%") s = true.
Proof.
  induction term as [|c term IH]; intros s Hpre.
  - apply like_percent_only.
  - destruct s as [|d s]; [discriminate|]. cbn [prefix_ci] in Hpre.
    apply andb_true_iff in Hpre as [Hcd Hpre].
    apply bool_decide_eq_true in Hcd. specialize (IH s Hpre). cbn [app].
    destruct (decide (c = "%"%char)) as [->|Hp].
    + rewrite like_percent. apply orb_true_iff. right.
      rewrite like_percent, IH. reflexivity.
    + destruct (decide (c = "_"%char)) as [->|Hu].
      * rewrite like_underscore. exact IH.
      * rewrite like_char by done.
        rewrite (bool_decide_eq_true_2 _ Hcd), IH. reflexivity.
Qed.

Lemma like_literal term : ∀ s,
  contains_ci term s = true →
  Sql.like (lit "%" ++ term ++ lit "%") s = true.
Proof.
  change (lit "%" ++ term ++ lit "%") with ("%"%char :: (term ++ lit "%")).
  induction s as [|c s IH]; cbn [contains_ci]; intros H;
    apply orb_true_iff in H as [H|H]; rewrite like_percent.
  - rewrite (like_literal_prefix _ _ H). reflexivity.
  - discriminate.
  - rewrite (like_literal_prefix _ _ H). reflexivity.
  - rewrite (IH H). apply orb_true_r.
Qed.

Lemma like_null_literal term column :
  column_contains_ci term column = true →
  Sql.like_null (lit "%" ++ term ++ lit "%") column = true.
Proof.
  destruct column as [s|]; [|discriminate].
  cbn [column_contains_ci Sql.like_null]. intros H.
  rewrite search_pattern_c_str.
  - apply like_literal. exact H.
  - apply (occurs_ci_no_NUL term (Sql.c_str s)); [apply c_str_no_NUL|].
    apply contains_ci_spec. exact H.
Qed.

(** X10. A search misses nothing.  For every term, wildcards or not, that
    makes a pattern of at most 50000 bytes, on a database whose calls
    succeed: a record in which the term occurs, up to the case of ASCII
    letters, in the file name, the window name, the tags or the notes
    (each read up to its first NUL character) is in the unlimited listing
    for that term. *)
Theorem search_misses_nothing d term i r :
  table d !! i = Some r →
  occurs_in_record term r →
  (Sql.utf8_length term + 2 ≤ 50000)%Z →
  (i, r) ∈ get_history healthy d (-1) 0 (Some term).
Proof.
  intros Hr Hocc Hlen. rewrite get_history_unlimited by exact Hlen.
  destruct term as [|c term]; cbn [PyStr.truthy default].
  - apply (proj1 (ordered_all (table d))). exact Hr.
  - apply (proj1 (ordered_selection
                    (λ kr, search_match (c :: term) kr.2 = true) (table d))).
    split; [exact Hr|]. cbn [snd]. unfold search_match.
    destruct Hocc as [H|[H|[H|H]]];
      apply column_contains_ci_spec, like_null_literal in H; rewrite H;
      rewrite ?orb_true_r; reflexivity.
Qed.

(** A witness of [search_misses_nothing]: the term [a.p] and row 1. *)
Lemma search_misses_nothing_witness :
  (1%Z, example_row) ∈ get_history healthy example_db (-1) 0 (Some (lit "A.P")).
Proof.
  apply (search_misses_nothing example_db (lit "A.P") 1 example_row).
  - reflexivity.
  - left. exists (lit "a.png"). split; [reflexivity|].
    exists [], (lit "a.p"), (lit "ng"). split; reflexivity.
  - vm_compute. discriminate.
Defined.

(** What the reading up to the first NUL is for: a window name with a
    NUL before the term. *)
Example search_stops_at_NUL :
  let row := {| filename := lit "b.png"; filepath := [lit "shots"; lit "b.png"];
                window_name := Some (lit "a" ++ "000"%char :: lit "bcd");
                capture_mode := lit "window"; timestamp := 1000;
                width := 1; height := 1; file_size := 1;
                tags := None; notes := None |} in
  let d := {| table := {[ 1%Z := row ]}; sqlite_sequence := 1 |} in
  get_history healthy d (-1) 0 (Some (lit "bcd")) = []
  ∧ get_history healthy d (-1) 0 (Some (lit "a")) = [(1%Z, row)].
Proof. split; vm_compute; reflexivity. Qed.

(** A term that makes a pattern of more than 50000 bytes finds
    nothing. *)
Lemma get_history_too_complex env d limit offset term :
  (50000 < Sql.utf8_length term + 2)%Z →
  get_history env d limit offset (Some term) = [].
Proof.
  intros Hlen. unfold get_history, get_history_body, call.
  destruct (env Connect); [reflexivity|]. simpl.
  destruct (env Execute); [reflexivity|]. simpl.
  destruct (bind_int_cases limit) as [-> | ->]; [|reflexivity]. simpl.
  destruct (bind_int_cases offset) as [-> | ->]; [|reflexivity]. simpl.
  destruct term as [|c term]; [vm_compute in Hlen; discriminate|].
  cbn [PyStr.truthy default].
  destruct (map_to_list (table d)) as [|kr rows]; cbn [Sql.where_].
  - simpl. destruct (env Fetch); [reflexivity|]. simpl.
    change (Sql.order_by_timestamp_desc []) with (@nil (Z * screenshot)).
    unfold Sql.limit_offset. rewrite drop_nil.
    destruct (limit <? 0)%Z; [reflexivity|apply take_nil].
  - rewrite (search_hit_too_complex _ _ Hlen). reflexivity.
Qed.

(** X11. Pages fit together.  With non-negative limits and offset, none
    of them, nor [limit + limit'], nor [offset + limit], beyond 64 bits,
    the page of [limit] records from [offset] followed by the page of
    [limit'] records from [offset + limit] is the page of
    [limit + limit'] records from [offset], in any environment. *)
Theorem get_history_pages env d limit limit' offset search_term :
  (0 ≤ limit)%Z → (0 ≤ limit')%Z → (0 ≤ offset)%Z →
  (limit + limit' < 2 ^ 63)%Z → (offset + limit < 2 ^ 63)%Z →
  get_history env d limit offset search_term
    ++ get_history env d limit' (offset + limit) search_term
  = get_history env d (limit + limit') offset search_term.
Proof.
  intros Hl Hl' Ho Hsum Hoff. unfold get_history, get_history_body, call.
  destruct (env Connect); [reflexivity|]. simpl.
  destruct (env Execute); [reflexivity|]. simpl.
  rewrite !bind_int_ok by lia. simpl.
  destruct (if PyStr.truthy search_term then _ else _) as [selected|];
    [|reflexivity]. simpl.
  destruct (env Fetch); [reflexivity|]. simpl.
  generalize (Sql.order_by_timestamp_desc selected).
  intros rows. unfold Sql.limit_offset.
  replace (limit <? 0)%Z with false by lia.
  replace (limit' <? 0)%Z with false by lia.
  replace (limit + limit' <? 0)%Z with false by lia.
  replace (Z.to_nat (offset + limit)) with (Z.to_nat offset + Z.to_nat limit)
    by lia.
  replace (Z.to_nat (limit + limit')) with (Z.to_nat limit + Z.to_nat limit')
    by lia.
  rewrite <- drop_drop. apply take_take_drop.
Qed.

(** A witness of [get_history_pages]: two pages of one record. *)
Lemma get_history_pages_witness :
  get_history healthy example_db 1 0 None
    ++ get_history healthy example_db 1 (0 + 1) None
  = get_history healthy example_db (1 + 1) 0 None.
Proof.
  apply (get_history_pages healthy example_db 1 1 0 None); lia.
Defined.

(** Beyond 64 bits the pages do not fit: two pages of [2 ^ 62] records
    hold the row of the example catalog, the page of [2 ^ 63] is empty. *)
Example pages_beyond_64_bits :
  get_history healthy example_db (2 ^ 62) 0 None = [(1%Z, example_row)]
  ∧ get_history healthy example_db (2 ^ 62 + 2 ^ 62) 0 None = [].
Proof.
  split; [|vm_compute; reflexivity].
  rewrite get_history_healthy by (lia || (vm_compute; discriminate)).
  apply limit_offset_example. lia.
Qed.

(** * Further properties of the region selector *)

Module RegionSelectorMore.

Import Qt RegionSelector.

Lemma one_big_quiet s s' out o :
  one_big_rectangle s out → (visible s' = true → visible s = true) →
  emitted o = [] → one_big_rectangle s' (out ++ o).
Proof.
  intros (Hopen & Hlen & Hbig) Hvis Ho. unfold one_big_rectangle.
  rewrite RegionSelectorFacts.emitted_app, Ho, app_nil_r.
  split; [|done]. intros Hv. apply Hopen, Hvis, Hv.
Qed.

Lemma dispatch_one_big s out e :
  one_big_rectangle s out →
  one_big_rectangle (dispatch s e).1 (out ++ (dispatch s e).2).
Proof.
  intros Hc. unfold dispatch. destruct (visible s) eqn:Hv.
  2:{ simpl. rewrite app_nil_r. exact Hc. }
  destruct e as [b pos|pos|b pos|k].
  - unfold mousePressEvent. destruct (is_left b); simpl.
    + apply (one_big_quiet s); done.
    + rewrite app_nil_r. exact Hc.
  - unfold mouseMoveEvent. destruct (truthy (start_point s)); simpl.
    + apply (one_big_quiet s); done.
    + rewrite app_nil_r. exact Hc.
  - unfold mouseReleaseEvent. destruct (start_point s) as [start|].
    2:{ simpl. rewrite app_nil_r. exact Hc. }
    destruct (is_left b && truthy (Some start)).
    2:{ simpl. rewrite app_nil_r. exact Hc. }
    match goal with |- context [if ?c then _ else _] => destruct c eqn:Hbig end;
      simpl.
    + destruct Hc as (Hopen & _ & _). unfold one_big_rectangle.
      rewrite RegionSelectorFacts.emitted_app, (Hopen Hv). simpl.
      split; [discriminate|]. split; [lia|].
      apply andb_true_iff in Hbig as [Hw Hh].
      apply Z.ltb_lt in Hw, Hh. constructor; [|constructor]. simpl. lia.
    + apply (one_big_quiet s); [done|discriminate|done].
  - destruct k; simpl.
    + apply (one_big_quiet s); [done|discriminate|done].
    + rewrite app_nil_r. exact Hc.
    + rewrite app_nil_r. exact Hc.
Qed.

Lemma run_one_big events : ∀ s out,
  one_big_rectangle s out →
  one_big_rectangle (run s events).1 (out ++ (run s events).2).
Proof.
  induction events as [|e events IH]; intros s out Hc; simpl.
  - rewrite app_nil_r. exact Hc.
  - pose proof (dispatch_one_big s out e Hc) as Hd.
    destruct (dispatch s e) as [s' o]. simpl in Hd.
    specialize (IH s' (out ++ o) Hd).
    destruct (run s' events) as [s'' o']. simpl in *.
    rewrite app_assoc. exact IH.
Qed.

Lemma shown_one_big events :
  one_big_rectangle (run shown events).1 (run shown events).2.
Proof.
  apply (run_one_big events shown []). split; [done|]. split; [simpl; lia|].
  constructor.
Qed.

(** X12. Whatever the events, a selector hands at most one rectangle to
    its caller, that rectangle is more than 5 wide and more than 5 high,
    and the selector is closed once it has handed it over. *)
Theorem at_most_one_rectangle (events : list event) :
  let s := (run shown events).1 in
  let out := (run shown events).2 in
  length (emitted out) ≤ 1
  ∧ ∀ x y width height, (x, y, width, height) ∈ emitted out →
      (5 < width)%Z ∧ (5 < height)%Z ∧ visible s = false.
Proof.
  intros s out. destruct (shown_one_big events) as (Hopen & Hlen & Hbig).
  fold s out in Hopen, Hlen, Hbig. split; [exact Hlen|].
  intros x y width height Hin. rewrite Forall_forall in Hbig.
  destruct (Hbig _ Hin) as [Hw Hh]. simpl in Hw, Hh.
  split; [exact Hw|]. split; [exact Hh|].
  destruct (visible s); [|reflexivity].
  rewrite Hopen in Hin by reflexivity. apply elem_of_nil in Hin. done.
Qed.

(** X13. The selector and the capture engine fit: a rectangle that a
    selector emits, passed by the slot of the main window to [capture] in
    mode [REGION], passes the checks of [capture] and [capture_region] (no
    ValueError), and it is that rectangle that is grabbed, with no window
    name. *)
Theorem emitted_region_is_grabbed monitors active_window
    (events : list event) x y width height :
  (x, y, width, height) ∈ emitted (run shown events).2 →
  Capture.on_region_selected monitors active_window x y width height
  = Capture.Returned (Capture.GrabRect x y width height, None).
Proof.
  intros Hin. destruct (shown_one_big events) as (_ & _ & Hbig).
  rewrite Forall_forall in Hbig. destruct (Hbig _ Hin) as [Hw Hh].
  simpl in Hw, Hh.
  unfold Capture.on_region_selected, Capture.capture, Capture.capture_region.
  simpl. rewrite !bool_decide_eq_false_2 by lia. reflexivity.
Qed.

(** A witness of [emitted_region_is_grabbed]: a drag from (10,10) to
    (50,50). *)
Lemma emitted_region_is_grabbed_witness :
  Capture.on_region_selected 2 None 10 10 41 41
  = Capture.Returned (Capture.GrabRect 10 10 41 41, None).
Proof.
  apply (emitted_region_is_grabbed 2 None
           [MousePress LeftButton {| px := 10; py := 10 |};
            MouseRelease LeftButton {| px := 50; py := 50 |}]).
  simpl. apply list_elem_of_singleton. reflexivity.
Defined.

Lemma run_moves_null start moves : ∀ e,
  isNull start = true →
  run {| start_point := Some start; end_point := e; visible := true |}
    (MouseMove <$> moves)
  = ({| start_point := Some start; end_point := e; visible := true |}, []).
Proof.
  induction moves as [|m moves IH]; intros e Hstart.
  - reflexivity.
  - rewrite fmap_cons. cbn [run dispatch visible]. unfold mouseMoveEvent.
    cbn [start_point truthy]. rewrite Hstart. cbv beta iota zeta.
    cbn [negb]. cbv beta iota zeta. rewrite (IH e Hstart). reflexivity.
Qed.

(** X14. A drag that starts at the origin of the overlay is lost: after a
    left press at (0,0), no move changes the end point, and no release,
    wherever and with whatever button, emits a rectangle or closes the
    selector, which stays open with its anchor at the origin. *)
Theorem origin_anchor_ignored (anchor release : QPoint) (button : MouseButton)
    (moves : list QPoint) :
  isNull anchor = true →
  run shown (MousePress LeftButton anchor :: (MouseMove <$> moves)
               ++ [MouseRelease button release])
  = ({| start_point := Some anchor; end_point := Some anchor;
        visible := true |}, [LogSelectionStarted]).
Proof.
  intros Hnull.
  change (MousePress LeftButton anchor :: (MouseMove <$> moves)
            ++ [MouseRelease button release])
    with ([MousePress LeftButton anchor] ++ (MouseMove <$> moves)
            ++ [MouseRelease button release]).
  rewrite RegionSelectorFacts.run_app.
  change (run shown [MousePress LeftButton anchor])
    with ({| start_point := Some anchor; end_point := Some anchor;
             visible := true |}, [LogSelectionStarted]).
  cbv beta iota zeta. rewrite RegionSelectorFacts.run_app.
  rewrite (run_moves_null anchor moves (Some anchor) Hnull).
  cbv beta iota zeta. cbn [run dispatch visible]. unfold mouseReleaseEvent.
  cbn [start_point truthy]. rewrite Hnull. cbn [negb].
  rewrite andb_false_r. reflexivity.
Qed.

(** A witness of [origin_anchor_ignored]: a drag from the origin over the
    whole of a small screen. *)
Lemma origin_anchor_ignored_witness :
  run shown (MousePress LeftButton {| px := 0; py := 0 |}
               :: (MouseMove <$> [{| px := 400; py := 300 |}])
               ++ [MouseRelease LeftButton {| px := 800; py := 600 |}])
  = ({| start_point := Some {| px := 0; py := 0 |};
        end_point := Some {| px := 0; py := 0 |};
        visible := true |}, [LogSelectionStarted]).
Proof.
  apply (origin_anchor_ignored {| px := 0; py := 0 |}
           {| px := 800; py := 600 |} LeftButton [{| px := 400; py := 300 |}]).
  reflexivity.
Defined.

(** X15. A new press forgets the old anchor.  In any open selector,
    whatever its anchor and end point, a left press away from the origin,
    moves and a left release close it and emit, if anything, the rectangle
    of the new press and the release. *)
Theorem press_restarts (s : selector) (anchor release : QPoint)
    (moves : list QPoint) :
  visible s = true →
  isNull anchor = false →
  let rect := normalized (QRect_of anchor release) in
  let big := (5 <? width rect)%Z && (5 <? height rect)%Z in
  let result := run s (MousePress LeftButton anchor :: (MouseMove <$> moves)
                         ++ [MouseRelease LeftButton release]) in
  visible result.1 = false
  ∧ emitted result.2
    = (if big then [(x rect, y rect, width rect, height rect)] else []).
Proof.
  intros Hv Hanchor rect big result. subst result.
  change (MousePress LeftButton anchor :: (MouseMove <$> moves)
            ++ [MouseRelease LeftButton release])
    with ([MousePress LeftButton anchor] ++ (MouseMove <$> moves)
            ++ [MouseRelease LeftButton release]).
  rewrite RegionSelectorFacts.run_app.
  assert (Hpress : run s [MousePress LeftButton anchor]
                   = ({| start_point := Some anchor; end_point := Some anchor;
                         visible := true |}, [LogSelectionStarted])).
  { cbn [run]. unfold dispatch. rewrite Hv. unfold mousePressEvent.
    cbn [is_left]. rewrite Hv. reflexivity. }
  rewrite Hpress. cbv beta iota zeta. rewrite RegionSelectorFacts.run_app.
  destruct (RegionSelectorFacts.run_moves anchor moves (Some anchor) Hanchor)
    as (e' & ->).
  cbv beta iota zeta. cbn [run dispatch visible]. unfold mouseReleaseEvent.
  cbn [start_point is_left truthy andb visible]. rewrite Hanchor. cbn [negb].
  fold rect. fold big. destruct big; split; reflexivity.
Qed.

(** A witness of [press_restarts]: a second press while dragging. *)
Lemma press_restarts_witness :
  emitted (run {| start_point := Some {| px := 700; py := 700 |};
                  end_point := Some {| px := 710; py := 720 |};
                  visible := true |}
             (MousePress LeftButton {| px := 10; py := 10 |}
                :: (MouseMove <$> [])
                ++ [MouseRelease LeftButton {| px := 50; py := 50 |}])).2
  = [(10, 10, 41, 41)%Z].
Proof.
  exact (proj2 (press_restarts
                  {| start_point := Some {| px := 700; py := 700 |};
                     end_point := Some {| px := 710; py := 720 |};
                     visible := true |}
                  {| px := 10; py := 10 |} {| px := 50; py := 50 |} []
                  eq_refl eq_refl)).
Defined.

End RegionSelectorMore.

(** * The settings *)

Module SettingsFacts.

Import Settings.

Lemma assoc_assign_eq key v items : assoc key (assign key v items) = Some v.
Proof.
  induction items as [|[k x] items IH]; simpl.
  - rewrite bool_decide_eq_true_2 by done. reflexivity.
  - case_bool_decide as Hk; simpl.
    + rewrite bool_decide_eq_true_2 by done. reflexivity.
    + rewrite bool_decide_eq_false_2 by done. exact IH.
Qed.

Lemma assoc_assign_ne key key' v items :
  key ≠ key' → assoc key' (assign key v items) = assoc key' items.
Proof.
  intros Hne. induction items as [|[k x] items IH]; simpl.
  - rewrite bool_decide_eq_false_2 by done. reflexivity.
  - case_bool_decide as Hk; simpl.
    + subst k. rewrite !bool_decide_eq_false_2 by done. reflexivity.
    + rewrite IH. reflexivity.
Qed.

Lemma set_cons items key key2 keys v :
  set (JDict items) (key :: key2 :: keys) v
  = match set (default (JDict []) (assoc key items)) (key2 :: keys) v with
    | Updated child' => Updated (JDict (assign key child' items))
    | Raised e => Raised e
    end.
Proof. reflexivity. Qed.

Lemma set_dict settings keys v settings' :
  set settings keys v = Updated settings' →
  ∃ items, settings = JDict items.
Proof.
  destruct keys as [|k [|k2 ks]]; [discriminate| |];
    destruct settings; try discriminate; eauto.
Qed.

(** X16. What [set] stores, [get] finds: when [Config.set] with some keys
    and a value goes through, [Config.get] with the same keys returns that
    value, dictionaries on the way having been made where they were
    missing. *)
Theorem set_then_get keys : ∀ settings v settings',
  set settings keys v = Updated settings' →
  get settings' keys = v.
Proof.
  induction keys as [|k keys IH]; intros settings v settings' Hset;
    [discriminate|].
  destruct (set_dict _ _ _ _ Hset) as [items ->].
  destruct keys as [|k2 keys].
  - injection Hset as <-. cbn [get]. rewrite assoc_assign_eq. reflexivity.
  - rewrite set_cons in Hset.
    destruct (set (default (JDict []) (assoc k items)) (k2 :: keys) v)
      as [child'|] eqn:Hchild; [|discriminate].
    injection Hset as <-. change (get (JDict ?i) (k :: ?ks))
      with (match assoc k i with Some x => get x ks | None => JNull end).
    rewrite assoc_assign_eq. eapply IH. exact Hchild.
Qed.

(** A witness of [set_then_get]: a key in a section that is not there
    yet. *)
Lemma set_then_get_witness :
  ∃ settings',
    set (JDict default_settings) [lit "ui"; lit "theme"] (JStr (lit "dark"))
    = Updated settings'
    ∧ get settings' [lit "ui"; lit "theme"] = JStr (lit "dark").
Proof.
  eexists. split; [reflexivity|].
  apply (set_then_get [lit "ui"; lit "theme"] (JDict default_settings)).
  reflexivity.
Defined.

Lemma get_empty_dict keys : keys ≠ [] → get (JDict []) keys = JNull.
Proof. destruct keys; [done|reflexivity]. Qed.

(** X17. [set] leaves the rest alone: when [Config.set] goes through, a
    [get] along any path that parts ways with the keys that were set
    returns what it returned before. *)
Theorem set_keeps_other keys keys' settings v settings' :
  set settings keys v = Updated settings' →
  part_ways keys keys' →
  get settings' keys' = get settings keys'.
Proof.
  intros Hset (common & a & rest & b & rest' & -> & -> & Hab).
  revert settings settings' Hset.
  induction common as [|c common IH]; intros settings settings' Hset;
    destruct (set_dict _ _ _ _ Hset) as [items ->].
  - assert (∃ x, settings' = JDict (assign a x items)) as [x ->].
    { simpl app in Hset. destruct rest as [|r rest].
      - injection Hset as <-. eauto.
      - rewrite set_cons in Hset.
        destruct (set _ (r :: rest) v); [|discriminate].
        injection Hset as <-. eauto. }
    simpl. rewrite assoc_assign_ne by done. reflexivity.
  - simpl app in *.
    destruct (common ++ a :: rest) as [|k2 ks] eqn:E.
    { destruct common; discriminate. }
    rewrite set_cons in Hset.
    destruct (set (default (JDict []) (assoc c items)) (k2 :: ks) v)
      as [child'|] eqn:Hchild; [|discriminate].
    injection Hset as <-. cbn [get]. rewrite assoc_assign_eq.
    rewrite (IH _ _ Hchild).
    destruct (assoc c items) as [x|]; [reflexivity|].
    apply get_empty_dict. destruct common; discriminate.
Qed.

(** A witness of [set_keeps_other]: setting the format keeps the
    organization mode. *)
Lemma set_keeps_other_witness :
  ∃ settings',
    set (JDict default_settings) [lit "storage"; lit "format"]
      (JStr (lit "bmp")) = Updated settings'
    ∧ get settings' [lit "storage"; lit "organize_by"] = JStr (lit "date").
Proof.
  eexists. split; [reflexivity|].
  rewrite (set_keeps_other [lit "storage"; lit "format"]
             [lit "storage"; lit "organize_by"] (JDict default_settings)
             (JStr (lit "bmp")) _ eq_refl).
  - reflexivity.
  - exists [lit "storage"], (lit "format"), [], (lit "organize_by"), [].
    repeat split. discriminate.
Defined.

End SettingsFacts.

Module SettingsMerge.

Import Settings.

Lemma merge_configs_loop default items :
  _merge_configs default (JDict items) = merge_loop default items.
Proof.
  cbn [_merge_configs]. revert default.
  induction items as [|[key v] items IH]; intros default; [reflexivity|].
  cbn [merge_loop].
  destruct (assoc key default) as [[]|]; try apply IH.
  destruct v; apply IH.
Qed.

Lemma assoc_not_key key (items : list (str * value)) :
  key ∉ items.*1 → assoc key items = None.
Proof.
  induction items as [|[k x] items IH]; intros Hk; [reflexivity|]. simpl.
  rewrite fmap_cons, not_elem_of_cons in Hk. destruct Hk as [Hne Hk].
  rewrite bool_decide_eq_false_2 by (intros ->; apply Hne; reflexivity).
  apply IH. exact Hk.
Qed.

(** What the loop leaves under a key: the loaded value, merged into a
    dictionary of the defaults when both are dictionaries, and the
    default where nothing was loaded. *)
Lemma merge_loop_assoc key items : NoDup items.*1 → ∀ result,
  assoc key (merge_loop result items)
  = match assoc key items with
    | None => assoc key result
    | Some v =>
        match assoc key result, v with
        | Some (JDict d), JDict _ => Some (JDict (_merge_configs d v))
        | _, _ => Some v
        end
    end.
Proof.
  induction items as [|[k v] items IH]; intros Hnd result; [reflexivity|].
  rewrite fmap_cons in Hnd. apply NoDup_cons in Hnd as [Hk Hnd].
  cbn [merge_loop assoc]. case_bool_decide as Hkey.
  - subst k. simpl in Hk.
    assert (Hstep : ∀ x, assoc key (merge_loop (assign key x result) items)
                         = Some x).
    { intros x. rewrite IH by done. rewrite (assoc_not_key _ _ Hk).
      apply SettingsFacts.assoc_assign_eq. }
    destruct (assoc key result) as [[]|]; try apply Hstep.
    destruct v; apply Hstep.
  - assert (Hstep : ∀ x, assoc key (merge_loop (assign k x result) items)
                         = match assoc key items with
                           | None => assoc key result
                           | Some v =>
                               match assoc key result, v with
                               | Some (JDict d), JDict _ =>
                                   Some (JDict (_merge_configs d v))
                               | _, _ => Some v
                               end
                           end).
    { intros x. rewrite IH by done.
      rewrite (SettingsFacts.assoc_assign_ne k key) by done. reflexivity. }
    destruct (assoc k result) as [[]|]; try apply Hstep.
    destruct v; apply Hstep.
Qed.

Lemma distinct_keys_assoc items key x :
  distinct_keys (JDict items) → assoc key items = Some x → distinct_keys x.
Proof.
  intros [_ Heach]. induction items as [|[k y] items IH]; [discriminate|].
  simpl. destruct Heach as [Hy Heach]. case_bool_decide.
  - intros [= <-]. exact Hy.
  - apply IH. exact Heach.
Qed.

Lemma distinct_keys_NoDup items : distinct_keys (JDict items) → NoDup items.*1.
Proof. intros [Hnd _]. exact Hnd. Qed.

Lemma get_cons items key keys :
  get (JDict items) (key :: keys)
  = match assoc key items with
    | Some x => get x keys
    | None => JNull
    end.
Proof. reflexivity. Qed.

Lemma get_not_dict x keys : is_dict x = false → keys ≠ [] → get x keys = JNull.
Proof. destruct keys; [done|]. destruct x; try reflexivity. discriminate. Qed.

Lemma missing_get keys : ∀ x, missing x keys → get x keys = JNull.
Proof.
  induction keys as [|k keys IH]; intros x Hm; [destruct Hm|].
  destruct x; try destruct Hm. rewrite get_cons. simpl in Hm.
  destruct (assoc k items) as [y|]; [|reflexivity].
  apply IH. apply Hm.
Qed.

Lemma missing_nonempty x keys : missing x keys → keys ≠ [].
Proof. destruct keys; [intros []|discriminate]. Qed.

(** X18. A loaded setting wins.  When the loaded settings hold, under some
    keys, a value that is neither a dictionary nor null, the merged
    settings hold that value under these keys, whatever the defaults. *)
Theorem merge_keeps_loaded keys : ∀ default loaded v,
  distinct_keys (JDict loaded) →
  get (JDict loaded) keys = v →
  is_dict v = false →
  v ≠ JNull →
  get (JDict (_merge_configs default (JDict loaded))) keys = v.
Proof.
  induction keys as [|k keys IH]; intros default loaded v Hd Hget Hleaf Hnull.
  - simpl in Hget. subst v. discriminate.
  - rewrite get_cons in Hget. rewrite get_cons.
    rewrite merge_configs_loop,
      (merge_loop_assoc k loaded (distinct_keys_NoDup _ Hd)).
    destruct (assoc k loaded) as [c|] eqn:Hc; [|congruence].
    pose proof (distinct_keys_assoc _ _ _ Hd Hc) as Hdc.
    destruct (assoc k default) as [[| | | | |d]|]; try exact Hget.
    destruct c as [| | | | |l']; try exact Hget.
    apply IH; assumption.
Qed.

(** A witness of [merge_keeps_loaded]: the format of the file. *)
Lemma merge_keeps_loaded_witness :
  get (JDict (_merge_configs default_settings (JDict loaded_settings)))
    [lit "storage"; lit "format"] = JStr (lit "jpg").
Proof.
  apply (merge_keeps_loaded [lit "storage"; lit "format"] default_settings
           loaded_settings).
  - split; [repeat constructor; set_solver|].
    split; [|done]. split; [repeat constructor; set_solver|done].
  - reflexivity.
  - reflexivity.
  - discriminate.
Defined.

(** X19. The defaults fill in.  Under keys that are missing from the
    loaded settings (some dictionary on the way lacks its key), the merged
    settings hold what the defaults hold. *)
Theorem merge_fills_defaults keys : ∀ default loaded,
  distinct_keys (JDict loaded) →
  missing (JDict loaded) keys →
  get (JDict (_merge_configs default (JDict loaded))) keys
  = get (JDict default) keys.
Proof.
  induction keys as [|k keys IH]; intros default loaded Hd Hm; [destruct Hm|].
  rewrite !get_cons.
  rewrite merge_configs_loop,
    (merge_loop_assoc k loaded (distinct_keys_NoDup _ Hd)).
  simpl in Hm. destruct (assoc k loaded) as [c|] eqn:Hc; [|reflexivity].
  destruct Hm as [Hdict Hm].
  pose proof (distinct_keys_assoc _ _ _ Hd Hc) as Hdc.
  destruct c as [| | | | |l']; try discriminate.
  pose proof (missing_nonempty _ _ Hm) as Hne.
  destruct (assoc k default) as [[| | | | |d]|];
    try (rewrite (missing_get _ _ Hm);
         try (symmetry; apply get_not_dict; [reflexivity|exact Hne]);
         reflexivity).
  apply IH; assumption.
Qed.

(** A witness of [merge_fills_defaults]: the organization mode, which the
    file does not set. *)
Lemma merge_fills_defaults_witness :
  get (JDict (_merge_configs default_settings (JDict loaded_settings)))
    [lit "storage"; lit "organize_by"] = JStr (lit "date").
Proof.
  rewrite (merge_fills_defaults [lit "storage"; lit "organize_by"]
             default_settings loaded_settings).
  - reflexivity.
  - split; [repeat constructor; set_solver|].
    split; [|done]. split; [repeat constructor; set_solver|done].
  - simpl. split; [reflexivity|exact I].
Defined.

End SettingsMerge.

(** * Where a saved file lands *)

Lemma rfind_none c s : c ∉ s → PyStr.rfind c s = None.
Proof.
  induction s as [|x s IH]; intros Hc; [reflexivity|]. simpl.
  apply not_elem_of_cons in Hc as [Hne Hc]. rewrite (IH Hc).
  rewrite bool_decide_eq_false_2 by (intros ->; done). reflexivity.
Qed.

Lemma rfind_last c base ext :
  c ∉ ext → PyStr.rfind c (base ++ c :: ext) = Some (length base).
Proof.
  intros Hc. induction base as [|x base IH]; simpl.
  - rewrite (rfind_none _ _ Hc). rewrite bool_decide_eq_true_2 by done.
    reflexivity.
  - rewrite IH. reflexivity.
Qed.

Lemma cut_extension base ext :
  base ≠ [] → ext ≠ [] → "."%char ∉ ext →
  Pathlib.cut (base ++ "."%char :: ext) = Some (length base).
Proof.
  intros Hb He Hdot. unfold Pathlib.cut. rewrite (rfind_last _ _ _ Hdot).
  rewrite bool_decide_eq_true_2; [reflexivity|].
  rewrite length_app. simpl. destruct base; [done|]. destruct ext; [done|].
  simpl. lia.
Qed.

Lemma name_snoc (p : Path) seg : Pathlib.name (p ++ [seg]) = seg.
Proof. unfold Pathlib.name. rewrite last_snoc. reflexivity. Qed.

Lemma parent_snoc (p : Path) seg : Pathlib.parent (p ++ [seg]) = p.
Proof.
  unfold Pathlib.parent. rewrite length_app. simpl.
  replace (length p + 1 - 1) with (length p) by lia.
  apply take_app_length.
Qed.

Lemma joinpath_snoc (p : Path) seg :
  seg ≠ [] → Pathlib.joinpath p seg = p ++ [seg].
Proof. destruct seg; [done|reflexivity]. Qed.

Section Place.

Variable strftime : str → str.
Variable isalnum : ascii → bool.
Variable isspace : ascii → bool.

Lemma generate_filename_shape cfg window_name :
  ∃ base, generate_filename strftime isalnum isspace cfg window_name
          = base ++ "."%char :: format cfg.
Proof.
  unfold generate_filename. destruct (PyStr.truthy window_name);
    eexists; reflexivity.
Qed.

(** X20. A saved file keeps its directory and its extension.  When the
    format is not empty and holds no dot, and the generated name is longer
    than its extension, the path that [save_screenshot] returns, numbered
    or not, lies in the directory that [get_save_path] chose and has a
    name that ends in a dot and the format. *)
Theorem saved_path_keeps_place env cfg fuel now image window_name mode w p w' :
  let filename := generate_filename strftime isalnum isspace cfg window_name in
  format cfg ≠ [] →
  "."%char ∉ format cfg →
  length (format cfg) + 1 < length filename →
  save_screenshot strftime isalnum isspace env cfg fuel now image
    window_name mode w = Some (p, w') →
  Pathlib.parent p = Pathlib.parent (get_save_path strftime cfg filename)
  ∧ ("."%char :: format cfg) `suffix_of` Pathlib.name p.
Proof.
  intros filename Hext Hdot Hlen Hsave.
  apply save_screenshot_inv in Hsave as [Hres _].
  fold filename in Hres.
  destruct (generate_filename_shape cfg window_name) as [base Hshape].
  fold filename in Hshape.
  assert (Hbase : base ≠ []).
  { intros ->. rewrite Hshape in Hlen. simpl in Hlen. lia. }
  assert (Hname : filename ≠ []).
  { rewrite Hshape. destruct base; discriminate. }
  unfold get_save_path in *.
  set (full := if bool_decide (organize_by cfg = lit "date")
               then foldl Pathlib.joinpath (base_path cfg)
                      (PyStr.split "/" (strftime (lit "%Y/%m/%d")))
               else if bool_decide (organize_by cfg = lit "application")
                    then Pathlib.joinpath (base_path cfg)
                           (app_name_of filename)
                    else base_path cfg) in *.
  rewrite (joinpath_snoc full filename Hname) in *.
  destruct Hres as [_ [[_ ->]|(_ & k & _ & -> & _)]].
  - split; [reflexivity|]. rewrite name_snoc, Hshape. exists base. reflexivity.
  - unfold numbered. rewrite parent_snoc.
    unfold Pathlib.stem, Pathlib.suffix. rewrite name_snoc, Hshape.
    rewrite (cut_extension base (format cfg) Hbase Hext Hdot).
    rewrite drop_app_length, take_app_length.
    rewrite joinpath_snoc by (destruct base; discriminate).
    rewrite parent_snoc, name_snoc. split; [reflexivity|].
    exists (base ++ lit "_" ++ lit (pretty k)).
    rewrite <- !app_assoc. reflexivity.
Qed.

End Place.

(** A witness of [saved_path_keeps_place]: a second save of one name. *)
Lemma saved_path_keeps_place_witness :
  ("."%char :: lit "png")
    `suffix_of` Pathlib.name [lit "shots"; lit "20240101_120000_Chrome_1.png"].
Proof.
  refine (proj2 (saved_path_keeps_place (λ p, p) PyStr.ascii_isalnum
            PyStr.ascii_isspace healthy example_config 5 0 example_image
            (Some (lit "Chrome")) (lit "fullscreen")
            {| files := {[ [lit "shots"; lit "20240101_120000_Chrome.png"] ]};
               db := db empty_world |}
            [lit "shots"; lit "20240101_120000_Chrome_1.png"]
            _ _ _ _ _)).
  - discriminate.
  - vm_compute. intros H. repeat (apply elem_of_cons in H as [H|H]; [discriminate|]).
    apply elem_of_nil in H. exact H.
  - vm_compute. lia.
  - vm_compute. reflexivity.
Defined.

(** Without a name before the extension the numbered file loses it. *)
Example numbered_without_base :
  numbered [lit "shots"; lit ".png"] 1 = [lit "shots"; lit ".png_1"].
Proof. reflexivity. Qed.

(** * Saving into one bucket *)

(** The numbered name of a candidate that ends in a dot and an
    extension, spelled out. *)
Lemma numbered_extension (dir : Path) base ext k :
  base ≠ [] → ext ≠ [] → "."%char ∉ ext →
  numbered (dir ++ [base ++ lit "." ++ ext]) k
  = dir ++ [base ++ lit "_" ++ lit (pretty k) ++ lit "." ++ ext].
Proof.
  intros Hbase Hext Hdot. unfold numbered.
  rewrite parent_snoc. unfold Pathlib.stem, Pathlib.suffix.
  rewrite name_snoc.
  change (base ++ lit "." ++ ext) with (base ++ "."%char :: ext).
  rewrite (cut_extension base ext Hbase Hext Hdot).
  rewrite drop_app_length, take_app_length.
  rewrite joinpath_snoc by (destruct base; discriminate).
  reflexivity.
Qed.

Section Bucket.

Variable strftime : str → str.
Variable isalnum : ascii → bool.
Variable isspace : ascii → bool.

(** The candidate path: a directory and the generated name, which ends
    in a dot and the format. *)
Lemma get_save_path_shape cfg window_name :
  ∃ dir base,
    get_save_path strftime cfg
      (generate_filename strftime isalnum isspace cfg window_name)
    = dir ++ [base ++ lit "." ++ format cfg].
Proof.
  destruct (generate_filename_shape strftime isalnum isspace cfg window_name)
    as [base Hshape].
  unfold get_save_path. rewrite Hshape.
  rewrite joinpath_snoc by (destruct base; discriminate).
  eexists _, base. reflexivity.
Qed.

(** C1, amended.  Saving [N] images one after the other into the same
    bucket (the same generated name and directory, the name holding no
    path separator), every write succeeding, returns [N] pairwise distinct
    paths, whatever bound above the number of files and of images is put
    on the rounds of the loop.
    The candidate is a directory [dir] and a name [base.format].  Each
    call returns a path that is free when it is made: the candidate itself
    when that is free, and otherwise the path that the code numbers with
    the least [k] from 1 on that gives a free path.  When [base] and the
    format are not empty and the format holds no dot, that path is
    [dir/base_k.format], the number before the extension. *)
Theorem save_all_distinct env cfg fuel now window_name mode images w :
  size (files w) + length images + 2 ≤ fuel →
  sep_free (generate_filename strftime isalnum isspace cfg window_name) →
  let candidate :=
    get_save_path strftime cfg
      (generate_filename strftime isalnum isspace cfg window_name) in
  ∃ paths w' dir base,
    save_all strftime isalnum isspace env cfg fuel now window_name mode
      images w = Some (paths, w')
    ∧ length paths = length images
    ∧ NoDup paths
    ∧ candidate = dir ++ [base ++ lit "." ++ format cfg]
    ∧ (∀ i p, paths !! i = Some p →
         resolution (files w ∪ list_to_set (take i paths)) candidate p)
    ∧ (base ≠ [] → format cfg ≠ [] → "."%char ∉ format cfg →
       ∀ i p, paths !! i = Some p →
         let fs := files w ∪ list_to_set (take i paths) in
         let name k :=
           base ++ lit "_" ++ lit (pretty k) ++ lit "." ++ format cfg in
         p ∉ fs
         ∧ ((candidate ∉ fs ∧ p = candidate)
            ∨ (candidate ∈ fs
               ∧ ∃ k, 1 ≤ k ∧ p = dir ++ [name k]
                      ∧ ∀ j, 1 ≤ j < k → dir ++ [name j] ∈ fs))).
Proof.
  intros Hfuel _ candidate.
  destruct (save_all_spec strftime isalnum isspace env cfg fuel now
              window_name mode images w Hfuel)
    as (paths & w' & Hrun & Hlen & _ & Hnd & _ & Hres).
  destruct (get_save_path_shape cfg window_name) as (dir & base & Hcand).
  fold candidate in Hcand, Hres.
  exists paths, w', dir, base.
  split; [exact Hrun|]. split; [exact Hlen|]. split; [exact Hnd|].
  split; [exact Hcand|]. split; [exact Hres|].
  intros Hbase Hext Hdot i p Hi fs name.
  destruct (Hres i p Hi) as [Hfree Hp]. fold fs in Hfree, Hp.
  split; [exact Hfree|].
  destruct Hp as [[Hc ->]|(Hc & k & Hk & -> & Hbelow)]; [left; done|].
  right. split; [exact Hc|]. exists k. split; [exact Hk|].
  rewrite Hcand. split.
  - apply numbered_extension; assumption.
  - intros j Hj. specialize (Hbelow j Hj). rewrite Hcand in Hbelow.
    rewrite numbered_extension in Hbelow by assumption. exact Hbelow.
Qed.

End Bucket.

(** A witness of [save_all_distinct]: three saves of one window within
    one second, each path the candidate or the candidate with a number
    before [.png]. *)
Lemma save_all_distinct_witness :
  ∃ paths w',
    save_all (λ p, p) PyStr.ascii_isalnum PyStr.ascii_isspace healthy
      example_config 5 0 (Some (lit "Chrome")) (lit "fullscreen")
      [example_image; example_image; example_image] empty_world
    = Some (paths, w')
    ∧ length paths = 3
    ∧ NoDup paths
    ∧ ∀ i p, paths !! i = Some p →
        p = [lit "shots"; lit "20240101_120000_Chrome.png"]
        ∨ ∃ k, 1 ≤ k
               ∧ p = [lit "shots";
                      lit "20240101_120000_Chrome" ++ lit "_"
                        ++ lit (pretty k) ++ lit ".png"].
Proof.
  destruct (save_all_distinct (λ p, p) PyStr.ascii_isalnum PyStr.ascii_isspace
              healthy example_config 5 0 (Some (lit "Chrome"))
              (lit "fullscreen")
              [example_image; example_image; example_image] empty_world)
    as (paths & w' & dir & base & Hrun & Hlen & Hnd & Hcand & _ & Hshape).
  { vm_compute. lia. }
  { vm_compute. repeat constructor; discriminate. }
  change (get_save_path _ _ _)
    with ([lit "shots"] ++ [lit "20240101_120000_Chrome" ++ lit ".png"])
    in Hcand.
  apply app_inj_tail in Hcand as [<- Hname].
  apply app_inj_2 in Hname as [<- _]; [|reflexivity].
  exists paths, w'. split; [exact Hrun|]. split; [exact Hlen|].
  split; [exact Hnd|]. intros i p Hi.
  destruct (Hshape ltac:(discriminate) ltac:(discriminate)) with (i := i) (p := p)
    as [_ [[_ ->]|(_ & k & Hk & -> & _)]].
  - vm_compute. intros H.
    repeat (apply elem_of_cons in H as [H|H]; [discriminate|]).
    apply elem_of_nil in H. exact H.
  - exact Hi.
  - left. reflexivity.
  - right. exists k. split; [exact Hk|]. reflexivity.
Defined.

(** C1 as stated fails: named after a window whose title holds no letter
    and no digit, the file is [.png]; a second save finds it and returns
    [.png_1], the number after the extension. *)
Lemma save_number_counterexample :
  fst <$> save_all (λ p, p) PyStr.ascii_isalnum PyStr.ascii_isspace healthy
            window_only_config 5 0 (Some (lit "***")) (lit "window")
            [example_image; example_image] empty_world
  = Some [ [lit "shots"; lit ".png"]; [lit "shots"; lit ".png_1"] ].
Proof. vm_compute. reflexivity. Qed.

(** * The settings as objects: what a reset leaves behind *)

Module PyObjectsFacts.
Import PyObjects.

Lemma pyassoc_assign key v items : assoc key (assign key v items) = Some v.
Proof.
  induction items as [|[k x] rest IH]; simpl.
  - rewrite bool_decide_eq_true_2; reflexivity.
  - destruct (bool_decide (k = key)) eqn:E; simpl; rewrite E; [reflexivity|exact IH].
Qed.

Lemma fresh_location (h : gmap nat (list (str * pyval))) l :
  is_Some (h !! l) → l ≠ fresh (dom h).
Proof.
  intros Hl E. apply elem_of_dom in Hl. rewrite E in Hl.
  exact (is_fresh (dom h) Hl).
Qed.

(** X21.  [reset_to_defaults] copies the outer dictionary only.  When the
    defaults hold the section [section] as a dictionary, then after a
    reset a [set(section, key, value=v)] succeeds, a second reset does not
    take it back ([get(section, key)] is still [v]), and the class-level
    [DEFAULT_CONFIG] itself now holds [v] there. *)
Theorem reset_keeps_nested_changes c0 items section l sec key v :
  heap c0 !! DEFAULT_CONFIG c0 = Some items →
  assoc section items = Some (PRef l) →
  l ≠ DEFAULT_CONFIG c0 →
  heap c0 !! l = Some sec →
  ∃ c1, set (reset_to_defaults c0) [section; key] v = Some c1
      ∧ get (reset_to_defaults c1) [section; key] = v
      ∧ get_from (heap c1) (PRef (DEFAULT_CONFIG c1)) [section; key] = v.
Proof.
  intros Hd Hs Hne Hl.
  assert (Hl0 : l ≠ fresh (dom (heap c0))) by (apply fresh_location; eauto).
  assert (Hd0 : DEFAULT_CONFIG c0 ≠ fresh (dom (heap c0)))
    by (apply fresh_location; eauto).
  assert (Hr : reset_to_defaults c0
               = {| heap := <[fresh (dom (heap c0)) := items]> (heap c0);
                    DEFAULT_CONFIG := DEFAULT_CONFIG c0;
                    settings := fresh (dom (heap c0)) |})
    by (unfold reset_to_defaults; rewrite Hd; reflexivity).
  rewrite Hr. unfold set. cbn [heap settings DEFAULT_CONFIG set_from].
  rewrite lookup_insert_eq, Hs.
  rewrite lookup_insert_ne by congruence. rewrite Hl.
  eexists. split; [reflexivity|].
  set (h1 := <[l := assign key v sec]> (<[fresh (dom (heap c0)) := items]> (heap c0))).
  assert (H1d : h1 !! DEFAULT_CONFIG c0 = Some items).
  { unfold h1. rewrite !lookup_insert_ne by congruence. exact Hd. }
  assert (H1l : h1 !! l = Some (assign key v sec)).
  { unfold h1. apply lookup_insert_eq. }
  assert (Hl1 : l ≠ fresh (dom h1)) by (apply fresh_location; eauto).
  split.
  - unfold get, reset_to_defaults. cbn [heap settings DEFAULT_CONFIG].
    rewrite H1d. cbn [heap settings DEFAULT_CONFIG get_from].
    rewrite lookup_insert_eq, Hs.
    rewrite lookup_insert_ne by congruence. rewrite H1l.
    rewrite pyassoc_assign. reflexivity.
  - cbn [heap settings DEFAULT_CONFIG get_from].
    rewrite H1d, Hs, H1l, pyassoc_assign. reflexivity.
Qed.

(** X22.  A value set under one key, in the outer dictionary, is taken
    back: when the settings are not the defaults object itself, after
    [set(key, value=v)] and a reset [get(key)] is what the defaults hold
    under [key], [None] if they hold nothing. *)
Theorem reset_restores_outer c items mine key v :
  heap c !! DEFAULT_CONFIG c = Some items →
  heap c !! settings c = Some mine →
  settings c ≠ DEFAULT_CONFIG c →
  ∃ c1, set c [key] v = Some c1
      ∧ get c1 [key] = v
      ∧ get (reset_to_defaults c1) [key] = default PNone (assoc key items).
Proof.
  intros Hd Hm Hne.
  unfold set. cbn [set_from]. rewrite Hm.
  eexists. split; [reflexivity|].
  split.
  - unfold get. cbn [heap settings get_from].
    rewrite lookup_insert_eq, pyassoc_assign. reflexivity.
  - unfold get, reset_to_defaults. cbn [heap settings DEFAULT_CONFIG].
    rewrite lookup_insert_ne by congruence. rewrite Hd.
    cbn [heap settings DEFAULT_CONFIG get_from].
    rewrite lookup_insert_eq. destruct (assoc key items); reflexivity.
Qed.

End PyObjectsFacts.

(** A witness of [reset_keeps_nested_changes]: the format set to [bmp]
    outlives a reset. *)
Lemma reset_keeps_nested_changes_witness :
  ∃ c1, PyObjects.set (PyObjects.reset_to_defaults default_objects)
          [lit "storage"; lit "format"] (PyObjects.PStr (lit "bmp")) = Some c1
      ∧ PyObjects.get (PyObjects.reset_to_defaults c1)
          [lit "storage"; lit "format"] = PyObjects.PStr (lit "bmp")
      ∧ PyObjects.get_from (PyObjects.heap c1)
          (PyObjects.PRef (PyObjects.DEFAULT_CONFIG c1))
          [lit "storage"; lit "format"] = PyObjects.PStr (lit "bmp").
Proof.
  apply (PyObjectsFacts.reset_keeps_nested_changes default_objects
           [(lit "storage", PyObjects.PRef 1)] (lit "storage") 1
           [(lit "format", PyObjects.PStr (lit "png"))] (lit "format")).
  - vm_compute. reflexivity.
  - vm_compute. reflexivity.
  - discriminate.
  - vm_compute. reflexivity.
Defined.

(** A witness of [reset_restores_outer]: a new outer key is gone after a
    reset. *)
Lemma reset_restores_outer_witness :
  ∃ c1, PyObjects.set (PyObjects.reset_to_defaults default_objects)
          [lit "theme"] (PyObjects.PStr (lit "dark")) = Some c1
      ∧ PyObjects.get c1 [lit "theme"] = PyObjects.PStr (lit "dark")
      ∧ PyObjects.get (PyObjects.reset_to_defaults c1) [lit "theme"]
        = default PyObjects.PNone
            (PyObjects.assoc (lit "theme") [(lit "storage", PyObjects.PRef 1)]).
Proof.
  apply (PyObjectsFacts.reset_restores_outer
           (PyObjects.reset_to_defaults default_objects)
           [(lit "storage", PyObjects.PRef 1)]
           [(lit "storage", PyObjects.PRef 1)] (lit "theme")).
  - vm_compute. reflexivity.
  - vm_compute. reflexivity.
  - vm_compute. discriminate.
Defined.
